(** * lightstep-stream-deletion-script: a shallow embedding of index.js

    The script lists the streams of a Lightstep project, checks in batches
    which of them had no activity in a window, records one status per
    stream in a ledger object, writes the ledger to
    "./streams-status.json", deletes the inactive streams and reports.

    The embedding follows index.js function by function and keeps its
    names.  Promises are values of a state-and-rejection monad over a
    [World] holding the one ledger object every [statuses] parameter
    aliases, the checkpoint file and the requests issued so far. *)

From Equations Require Import Equations.
From Stdlib Require Import String Ascii NArith ZArith Bool Arith Lia List.
From Stdlib Require Import Permutation.
Import ListNotations.
Local Open Scope string_scope.
Local Open Scope list_scope.
Local Open Scope nat_scope.

Set Implicit Arguments.

(** ** Batching (index.js lines 232-247) *)

Module Batcher.

Definition BATCH_SIZE : nat := 10.

(** [all.slice(from, to)] for [0 <= from <= to]: the elements at indices
    [from .. to-1] that exist. *)
Definition slice {A : Type} (all : list A) (from to : nat) : list A :=
  firstn (to - from) (skipn from all).

(** [curr == null] and [res == null] select the defaults [0] and [[]]:
    an omitted argument is [None].  [res.push] extends the accumulator at
    its end.  The recursion stops as soon as a whole batch no longer fits
    after [curr]. *)
Equations? split {A : Type} (all : list A) (curr : option nat)
    (res : option (list (list A))) : list (list A)
    by wf (length all - match curr with Some c => c | None => 0 end) lt :=
  split all curr res :=
    let curr0 := match curr with Some c => c | None => 0 end in
    let res0 := match res with Some r => r | None => [] end in
    if (length all <? curr0 + BATCH_SIZE) && (length res0 =? 0) then [all]
    else if Sumbool.sumbool_of_bool (length all <? curr0 + BATCH_SIZE) then res0
    else split all (Some (curr0 + BATCH_SIZE))
           (Some (res0 ++ [slice all curr0 (curr0 + BATCH_SIZE)])).
Proof.
  apply Nat.ltb_ge in e. unfold BATCH_SIZE in *. destruct curr; simpl in *; lia.
Qed.

End Batcher.

(** ** Plain objects used as maps (the ledger)

    The ledger is a plain JS object whose own properties are stream ids
    and whose values are status strings.  It is modelled by the list of
    its own properties in the order [Object.keys] enumerates them:
    array-index names first, by ascending value, then the other names in
    creation order.  Strings are kept as the byte sequences the
    checkpoint file holds for them.

    Property names are the stream ids the API issues; the accessor
    [__proto__] that every plain object inherits is not a stream id and
    is outside the model. *)

Module JsObject.

Definition t : Type := list (string * string).

(** [{}] *)
Definition empty : t := [].

Definition digit (c : ascii) : option N :=
  let n := N_of_ascii c in
  if ((48 <=? n) && (n <=? 57))%N then Some (n - 48)%N else None.

Fixpoint digits (s : string) (acc : N) : option N :=
  match s with
  | EmptyString => Some acc
  | String c s' =>
      match digit c with
      | Some d => digits s' (10 * acc + d)%N
      | None => None
      end
  end.

(** A property name is an array index when it is the canonical decimal
    numeral of an integer between [0] and [2^32 - 2]. *)
Definition array_index (k : string) : option N :=
  match k with
  | EmptyString => None
  | String c rest =>
      if Ascii.eqb c "0" then
        match rest with EmptyString => Some 0%N | _ => None end
      else
        match digits k 0 with
        | Some n => if (n <? 4294967295)%N then Some n else None
        | None => None
        end
  end.

(** [o[k]]; [None] stands for [undefined]. *)
Fixpoint get (o : t) (k : string) : option string :=
  match o with
  | [] => None
  | (k', v) :: o' => if String.eqb k' k then Some v else get o' k
  end.

Definition has (o : t) (k : string) : bool :=
  match get o k with Some _ => true | None => false end.

(** Writing an existing property keeps its place. *)
Fixpoint update (o : t) (k v : string) : t :=
  match o with
  | [] => []
  | (k', v') :: o' =>
      if String.eqb k' k then (k', v) :: o' else (k', v') :: update o' k v
  end.

(** A new array-index property goes among the array indices, by value. *)
Fixpoint insert_index (n : N) (k v : string) (o : t) : t :=
  match o with
  | [] => [(k, v)]
  | (k', v') :: o' =>
      match array_index k' with
      | Some n' =>
          if (n' <? n)%N then (k', v') :: insert_index n k v o'
          else (k, v) :: (k', v') :: o'
      | None => (k, v) :: (k', v') :: o'
      end
  end.

(** [o[k] = v] *)
Definition set (o : t) (k v : string) : t :=
  if has o k then update o k v
  else match array_index k with
       | Some n => insert_index n k v o
       | None => o ++ [(k, v)]
       end.

(** [delete o[k]] *)
Fixpoint delete (o : t) (k : string) : t :=
  match o with
  | [] => []
  | (k', v) :: o' =>
      if String.eqb k' k then delete o' k else (k', v) :: delete o' k
  end.

(** [Object.keys(o)] *)
Definition keys (o : t) : list string := map fst o.

(** The lists that are the property list of an object: no name twice,
    array indices first and ascending. *)
Fixpoint ordered (prev : option N) (named : bool) (ks : list string) : bool :=
  match ks with
  | [] => true
  | k :: ks' =>
      match array_index k with
      | Some n =>
          negb named
          && match prev with Some p => (p <? n)%N | None => true end
          && ordered (Some n) false ks'
      | None => ordered prev true ks'
      end
  end.

Definition wf (o : t) : Prop :=
  NoDup (keys o) /\ ordered None false (keys o) = true.

End JsObject.

(** ** The outside world and promises *)

(** What a request or a file operation can be rejected with. *)
Inductive JsError : Type :=
| StatusCodeError (statusCode : nat)
| SystemError (code : string)
| SyntaxError.

Inductive Settled (A : Type) : Type :=
| Fulfilled (a : A)
| Rejected (e : JsError).
Arguments Fulfilled {A} a.
Arguments Rejected {A} e.

(** One entry of the [data] array of the list-streams response. *)
Record Stream : Type := {
  stream_id : string;
  name : string;
  query : string;
  created_time : Z
}.

(** The Lightstep API and the file system, as they answer during one run:
    each request is settled by its stream id. *)
Record Remote : Type := {
  searches : Settled (list Stream);
  ops_counts : string -> Settled (list Z);
  searches_delete : string -> Settled unit;
  writeFile_error : option JsError
}.

Inductive Request : Type :=
| GetSearches
| GetTimeseries (streamId : string)
| DeleteSearch (streamId : string).

Inductive Line : Type :=
| ErrorChecking (e : JsError)
| ErrorDeleting (e : JsError)
| InfoDryRun
| InfoReport (unknown inactive deleted : list string)
| ErrorUncaught (e : JsError).

(** The state a run acts on: the ledger object (the one object that the
    parameters [statuses], [streamStatuses] and [status] all refer to),
    the content of "./streams-status.json" if it exists, the requests
    sent so far and the console. *)
Record World : Type := {
  ledger : JsObject.t;
  file : option string;
  issued : list Request;
  console : list Line
}.

Definition with_ledger (o : JsObject.t) (w : World) : World :=
  {| ledger := o; file := file w; issued := issued w; console := console w |}.

Definition with_file (f : string) (w : World) : World :=
  {| ledger := ledger w; file := Some f; issued := issued w;
     console := console w |}.

Definition send (r : Request) (w : World) : World :=
  {| ledger := ledger w; file := file w; issued := issued w ++ [r];
     console := console w |}.

Definition print (l : Line) (w : World) : World :=
  {| ledger := ledger w; file := file w; issued := issued w;
     console := console w ++ [l] |}.

(** A promise is run against the world until it has settled; the world
    it returns is the one reached then. *)
Definition Promise (A : Type) : Type := World -> Settled A * World.

Definition resolve {A : Type} (a : A) : Promise A :=
  fun w => (Fulfilled a, w).

(** [p.then(f)] *)
Definition then_ {A B : Type} (p : Promise A) (f : A -> Promise B)
    : Promise B :=
  fun w =>
    match p w with
    | (Fulfilled a, w') => f a w'
    | (Rejected e, w') => (Rejected e, w')
    end.

(** [p.catch(h)] *)
Definition catch_ {A : Type} (p : Promise A) (h : JsError -> Promise A)
    : Promise A :=
  fun w =>
    match p w with
    | (Fulfilled a, w') => (Fulfilled a, w')
    | (Rejected e, w') => h e w'
    end.

(** A synchronous effect on the world. *)
Definition effect (f : World -> World) : Promise unit :=
  fun w => (Fulfilled tt, f w).

(** [xs.forEach(f)] for a callback with effects only. *)
Fixpoint forEach {A : Type} (xs : list A) (f : A -> World -> World)
    (w : World) : World :=
  match xs with
  | [] => w
  | x :: xs' => forEach xs' f (f x w)
  end.

(** [Promise.all(ps)]: the promises were all started when the array was
    built, so every one of them runs and has its effects, also after one
    of them was rejected.  The result is rejected when one of them is;
    the error kept is that of the first rejected promise of the array
    (in the script, of the first to be rejected in time: the error only
    goes to the console). *)
Fixpoint Promise_all {A : Type} (ps : list (Promise A)) : Promise (list A) :=
  fun w =>
    match ps with
    | [] => (Fulfilled [], w)
    | p :: ps' =>
        let (r, w1) := p w in
        let (rs, w2) := Promise_all ps' w1 in
        (match r, rs with
         | Fulfilled a, Fulfilled l => Fulfilled (a :: l)
         | Rejected e, _ => Rejected e
         | Fulfilled _, Rejected e => Rejected e
         end, w2)
    end.

(** bluebird's [Promise.map(xs, f, {concurrency: 8})].  Up to eight
    callbacks are in flight and finish in any order; each touches the
    ledger in one go when its requests have settled.  The model runs them
    in list order and stops at a rejected one. *)
Fixpoint Promise_map {A B : Type} (xs : list A) (f : A -> Promise B)
    : Promise (list B) :=
  match xs with
  | [] => resolve []
  | x :: xs' =>
      then_ (f x) (fun b =>
      then_ (Promise_map xs' f) (fun bs => resolve (b :: bs)))
  end.

(** ** JSON text of a ledger

    [JSON.stringify] and [JSON.parse] (ECMA-262, 25.5) on the values the
    checkpoint holds: one object whose members are all strings.  A text
    that [JSON.parse] rejects, or whose value is not such an object, or
    that spells a surrogate with an escape, has no parse here. *)

Module JSON.

Definition dquote : ascii := ascii_of_nat 34.
Definition backslash : ascii := ascii_of_nat 92.

Definition hex_char (n : N) : ascii :=
  if (n <? 10)%N then ascii_of_N (48 + n) else ascii_of_N (87 + n).

(** QuoteJSONString, one character: the two-character escapes, [\u00xx]
    for the other control characters, the character itself otherwise. *)
Definition quote_char (c : ascii) : string :=
  let n := N_of_ascii c in
  let esc (x : ascii) := String backslash (String x EmptyString) in
  if (n =? 8)%N then esc "b"%char
  else if (n =? 9)%N then esc "t"%char
  else if (n =? 10)%N then esc "n"%char
  else if (n =? 12)%N then esc "f"%char
  else if (n =? 13)%N then esc "r"%char
  else if (n =? 34)%N then esc dquote
  else if (n =? 92)%N then esc backslash
  else if (n <? 32)%N then
    String backslash
      (String "u" (String "0" (String "0"
        (String (hex_char (n / 16)) (String (hex_char (n mod 16))
          EmptyString)))))
  else String c EmptyString.

Fixpoint quote_body (s : string) : string :=
  match s with
  | EmptyString => EmptyString
  | String c s' => (quote_char c ++ quote_body s')%string
  end.

Definition quote (s : string) : string :=
  String dquote (quote_body s ++ String dquote EmptyString)%string.

Definition member (kv : string * string) : string :=
  (quote (fst kv) ++ ":" ++ quote (snd kv))%string.

Fixpoint members (o : JsObject.t) : string :=
  match o with
  | [] => EmptyString
  | [kv] => member kv
  | kv :: o' => (member kv ++ "," ++ members o')%string
  end.

(** [JSON.stringify(o)] *)
Definition stringify (o : JsObject.t) : string :=
  ("{" ++ members o ++ "}")%string.

(** The UTF-8 bytes of a code point below [2^16] that is no surrogate. *)
Definition utf8 (cp : N) : option string :=
  if (cp <? 128)%N then Some (String (ascii_of_N cp) EmptyString)
  else if (cp <? 2048)%N then
    Some (String (ascii_of_N (192 + cp / 64))
           (String (ascii_of_N (128 + cp mod 64)) EmptyString))
  else if ((55296 <=? cp) && (cp <=? 57343))%N then None
  else
    Some (String (ascii_of_N (224 + cp / 4096))
           (String (ascii_of_N (128 + (cp / 64) mod 64))
             (String (ascii_of_N (128 + cp mod 64)) EmptyString))).

Definition hex_value (c : ascii) : option N :=
  let n := N_of_ascii c in
  if ((48 <=? n) && (n <=? 57))%N then Some (n - 48)%N
  else if ((97 <=? n) && (n <=? 102))%N then Some (n - 87)%N
  else if ((65 <=? n) && (n <=? 70))%N then Some (n - 55)%N
  else None.

Definition is_ws (c : ascii) : bool :=
  let n := N_of_ascii c in
  ((n =? 32) || (n =? 9) || (n =? 10) || (n =? 13))%N.

(** Which string of a member is being read. *)
Inductive Slot : Type :=
| KeySlot
| ValueSlot (k : string).

(** Where the reader is in the text. *)
Inductive State : Type :=
| Start
| Open (o : JsObject.t)
| Comma (o : JsObject.t)
| Str (o : JsObject.t) (sl : Slot) (buf : string)
| Esc (o : JsObject.t) (sl : Slot) (buf : string)
| Uni (o : JsObject.t) (sl : Slot) (buf : string) (todo : nat) (acc : N)
| Colon (o : JsObject.t) (k : string)
| Value (o : JsObject.t) (k : string)
| Next (o : JsObject.t)
| End (o : JsObject.t).

Definition push (buf : string) (c : ascii) : string :=
  (buf ++ String c EmptyString)%string.

(** A closing quote ends a key, or ends a value and defines the member:
    a repeated key keeps its place and takes the later value. *)
Definition close (o : JsObject.t) (sl : Slot) (buf : string) : State :=
  match sl with
  | KeySlot => Colon o buf
  | ValueSlot k => Next (JsObject.set o k buf)
  end.

Definition step (st : State) (c : ascii) : option State :=
  match st with
  | Start =>
      if is_ws c then Some Start
      else if Ascii.eqb c "{" then Some (Open JsObject.empty)
      else None
  | Open o =>
      if is_ws c then Some (Open o)
      else if Ascii.eqb c dquote then Some (Str o KeySlot EmptyString)
      else if Ascii.eqb c "}" then Some (End o)
      else None
  | Comma o =>
      if is_ws c then Some (Comma o)
      else if Ascii.eqb c dquote then Some (Str o KeySlot EmptyString)
      else None
  | Str o sl buf =>
      if Ascii.eqb c dquote then Some (close o sl buf)
      else if Ascii.eqb c backslash then Some (Esc o sl buf)
      else if (N_of_ascii c <? 32)%N then None
      else Some (Str o sl (push buf c))
  | Esc o sl buf =>
      if Ascii.eqb c dquote then Some (Str o sl (push buf dquote))
      else if Ascii.eqb c backslash then Some (Str o sl (push buf backslash))
      else if Ascii.eqb c "/" then Some (Str o sl (push buf "/"%char))
      else if Ascii.eqb c "b" then Some (Str o sl (push buf (ascii_of_nat 8)))
      else if Ascii.eqb c "f" then Some (Str o sl (push buf (ascii_of_nat 12)))
      else if Ascii.eqb c "n" then Some (Str o sl (push buf (ascii_of_nat 10)))
      else if Ascii.eqb c "r" then Some (Str o sl (push buf (ascii_of_nat 13)))
      else if Ascii.eqb c "t" then Some (Str o sl (push buf (ascii_of_nat 9)))
      else if Ascii.eqb c "u" then Some (Uni o sl buf 4 0%N)
      else None
  | Uni o sl buf todo acc =>
      match hex_value c with
      | None => None
      | Some d =>
          let acc' := (16 * acc + d)%N in
          match todo with
          | 0 => None
          | 1 =>
              match utf8 acc' with
              | Some bytes => Some (Str o sl (buf ++ bytes)%string)
              | None => None
              end
          | S todo' => Some (Uni o sl buf todo' acc')
          end
      end
  | Colon o k =>
      if is_ws c then Some (Colon o k)
      else if Ascii.eqb c ":" then Some (Value o k)
      else None
  | Value o k =>
      if is_ws c then Some (Value o k)
      else if Ascii.eqb c dquote then Some (Str o (ValueSlot k) EmptyString)
      else None
  | Next o =>
      if is_ws c then Some (Next o)
      else if Ascii.eqb c "," then Some (Comma o)
      else if Ascii.eqb c "}" then Some (End o)
      else None
  | End o => if is_ws c then Some (End o) else None
  end.

Fixpoint run (st : State) (text : string) : option State :=
  match text with
  | EmptyString => Some st
  | String c text' =>
      match step st c with
      | Some st' => run st' text'
      | None => None
      end
  end.

(** [JSON.parse(text)] *)
Definition parse (text : string) : option JsObject.t :=
  match run Start text with
  | Some (End o) => Some o
  | _ => None
  end.

End JSON.

(** ** The script (index.js)

    The parameters that only shape the request URL or its headers
    ([args.org], [args.project], [args.apiKey], [args.apiEnv], and
    [youngest]/[oldest] in the time-series request) do not appear: the
    answer of each request is given by the [Remote].  The [statuses]
    parameter is the ledger of the world. *)

Module Script.
Import Batcher.

Record Argv : Type := {
  dryRun : bool;
  service : string
}.

(** What a time-series request resolves to. *)
Record Activity : Type := {
  active : bool;
  id : string
}.

Section Pipeline.

Variable remote : Remote.

(** [statuses[k] = v] and [delete statuses[k]] *)
Definition assign (k v : string) (w : World) : World :=
  with_ledger (JsObject.set (ledger w) k v) w.

Definition remove (k : string) (w : World) : World :=
  with_ledger (JsObject.delete (ledger w) k) w.

(** [statuses[k] === v] *)
Definition status_is (o : JsObject.t) (v k : string) : bool :=
  match JsObject.get o k with
  | Some s => String.eqb s v
  | None => false
  end.

(** [s.includes(sub)] *)
Definition includes (s sub : string) : bool :=
  match String.index 0 sub s with
  | Some _ => true
  | None => false
  end.

(** lines 361-385 *)
Definition timeseriesRequest (streamId : string) : Promise Activity :=
  then_
    (fun w => (ops_counts remote streamId, send (GetTimeseries streamId) w))
    (fun counts =>
       resolve {| active := existsb (fun p => (0 <? p)%Z) counts;
                  id := streamId |}).

(** lines 308-320 *)
Definition deleteStreamRequest (streamId : string) : Promise unit :=
  fun w => (searches_delete remote streamId, send (DeleteSearch streamId) w).

(** lines 323-331 *)
Definition excludeStream (s : Stream) (youngest oldest : Z) : bool :=
  let created := created_time s in
  let recentlyCreated := ((oldest <? created) && (created <? youngest))%Z in
  let excludeStrings := ["load"; "Load"; "Load-test"; "load-test"] in
  let protected :=
    existsb (fun str => includes (name s) str || includes (query s) str)
      excludeStrings in
  protected || recentlyCreated.

(** lines 333-338 *)
Definition isInService (s : Stream) (service : string) : bool :=
  if String.eqb service "" then true else includes (query s) service.

(** lines 340-359 *)
Definition listStreamsRequest (args : Argv) (youngest oldest : Z)
    : Promise (list string) :=
  then_
    (fun w => (searches remote, send GetSearches w))
    (fun data =>
       resolve
         (map stream_id
            (filter (fun r => isInService r (service args))
               (filter (fun r => negb (excludeStream r youngest oldest))
                  data)))).

(** lines 253-285.  [formatError] only shapes the message printed. *)
Definition filterBatch (batch : list string) : Promise unit :=
  let reqs := map timeseriesRequest batch in
  catch_
    (then_ (Promise_all reqs) (fun res =>
       let filtered := filter (fun s => negb (active s)) res in
       let active_ := filter (fun s => active s) res in
       effect (fun w =>
         forEach active_ (fun r => remove (id r))
           (forEach filtered (fun r => assign (id r) "inactive") w))))
    (fun err =>
       effect (fun w =>
         forEach batch (fun streamId => assign streamId "unknown")
           (print (ErrorChecking err) w))).

(** lines 287-306.  Each request marks its own id when it succeeds,
    whether or not another request of the batch failed. *)
Definition deleteBatch (batch : list string) : Promise unit :=
  let deletions :=
    map (fun streamId =>
           then_ (deleteStreamRequest streamId)
             (fun _ => effect (assign streamId "deleted")))
        batch in
  catch_
    (then_ (Promise_all deletions) (fun _ => resolve tt))
    (fun err => effect (print (ErrorDeleting err))).

(** lines 100-111 *)
Definition batchCheckStreamStatuses (ids : list string) : Promise unit :=
  let batches := split ids None None in
  then_ (Promise_map batches filterBatch) (fun _ => resolve tt).

(** lines 113-124 *)
Definition batchDeleteStreams (ids : list string) : Promise unit :=
  let batches := split ids None None in
  then_ (Promise_map batches deleteBatch) (fun _ => resolve tt).

(** lines 220-226 *)
Definition storeStreamStatus : Promise unit :=
  fun w =>
    match writeFile_error remote with
    | Some e => (Rejected e, w)
    | None => (Fulfilled tt, with_file (JSON.stringify (ledger w)) w)
    end.

(** lines 228-230; the parsed object becomes the ledger. *)
Definition getStreamStatus : Promise unit :=
  fun w =>
    match file w with
    | None => (Rejected (SystemError "ENOENT"), w)
    | Some text =>
        match JSON.parse text with
        | Some o => (Fulfilled tt, with_ledger o w)
        | None => (Rejected SyntaxError, w)
        end
    end.

(** lines 188-201 *)
Definition streamIdsToBeDeleted (streamStatuses : JsObject.t) : list string :=
  filter (status_is streamStatuses "inactive") (JsObject.keys streamStatuses).

Definition deleteStreams (argv : Argv) : Promise unit :=
  if dryRun argv then effect (print InfoDryRun)
  else fun w => batchDeleteStreams (streamIdsToBeDeleted (ledger w)) w.

(** lines 162-186: the three arrays, then the one [console.info]. *)
Definition report : Promise unit :=
  effect (fun w =>
    let statuses := ledger w in
    let sort (acc : list string * list string * list string)
             (streamId : string) :=
      let '(deleted, inactive, unknown) := acc in
      match JsObject.get statuses streamId with
      | Some s =>
          if String.eqb s "unknown" then
            (deleted, inactive, unknown ++ [streamId])
          else if String.eqb s "inactive" then
            (deleted, inactive ++ [streamId], unknown)
          else if String.eqb s "deleted" then
            (deleted ++ [streamId], inactive, unknown)
          else acc
      | None => acc
      end in
    let '(deleted, inactive, unknown) :=
      fold_left sort (JsObject.keys statuses) ([], [], []) in
    print (InfoReport unknown inactive deleted) w).

(** lines 126-136; [{}] is a new ledger. *)
Definition start (argv : Argv) (youngest oldest : Z) : Promise unit :=
  catch_
    (then_ (then_ (then_ (then_ (then_
       (listStreamsRequest argv youngest oldest)
       (fun ids w =>
          batchCheckStreamStatuses ids (with_ledger JsObject.empty w)))
       (fun _ => storeStreamStatus))
       (fun _ => deleteStreams argv))
       (fun _ => storeStreamStatus))
       (fun _ => report))
    (fun err => effect (print (ErrorUncaught err))).

(** lines 140-152, the first callback of [resume] *)
Definition streamIdsToBeChecked (streamStatuses : JsObject.t) : list string :=
  filter (status_is streamStatuses "unknown") (JsObject.keys streamStatuses).

Definition checkUnknown : Promise unit :=
  fun w => batchCheckStreamStatuses (streamIdsToBeChecked (ledger w)) w.

(** lines 138-160 *)
Definition resume (argv : Argv) : Promise unit :=
  catch_
    (then_ (then_ (then_ (then_ (then_
       getStreamStatus
       (fun _ => checkUnknown))
       (fun _ => storeStreamStatus))
       (fun _ => deleteStreams argv))
       (fun _ => storeStreamStatus))
       (fun _ => report))
    (fun err => effect (print (ErrorUncaught err))).

End Pipeline.
End Script.

(** ** Vocabulary of the statements *)

(** No activity in the window: no count above zero. *)
Definition quiet (counts : list Z) : Prop :=
  forall p, In p counts -> (p <= 0)%Z.

(** Some activity in the window. *)
Definition busy (counts : list Z) : Prop :=
  exists p, In p counts /\ (0 < p)%Z.

(** What a time-series request for [streamId] settles to. *)
Definition activity_of (remote : Remote) (streamId : string)
    : Settled Script.Activity :=
  match ops_counts remote streamId with
  | Fulfilled counts =>
      Fulfilled {| Script.active := existsb (fun p => (0 <? p)%Z) counts;
                   Script.id := streamId |}
  | Rejected e => Rejected e
  end.

(** How [Promise.all] settles from the way its promises settled. *)
Fixpoint settle_all {A : Type} (rs : list (Settled A)) : Settled (list A) :=
  match rs with
  | [] => Fulfilled []
  | r :: rs' =>
      match r, settle_all rs' with
      | Fulfilled a, Fulfilled l => Fulfilled (a :: l)
      | Rejected e, _ => Rejected e
      | Fulfilled _, Rejected e => Rejected e
      end
  end.

(** The effect of the pipelines on the world, batch by batch. *)

Section Effects.
Import Script.

Variable remote : Remote.

(** What one batch of the classifier does to the world. *)
Definition checked (batch : list string) (w : World) : World :=
  let sent := forEach batch (fun i => send (GetTimeseries i)) w in
  match settle_all (map (activity_of remote) batch) with
  | Fulfilled res =>
      forEach (filter (fun s => active s) res) (fun r => remove (id r))
        (forEach (filter (fun s => negb (active s)) res)
           (fun r => assign (id r) "inactive") sent)
  | Rejected err =>
      forEach batch (fun i => assign i "unknown")
        (print (ErrorChecking err) sent)
  end.

Definition confirmed (streamId : string) : bool :=
  match searches_delete remote streamId with
  | Fulfilled _ => true
  | Rejected _ => false
  end.

Definition deleted_one (streamId : string) (w : World) : World :=
  if confirmed streamId
  then assign streamId "deleted" (send (DeleteSearch streamId) w)
  else send (DeleteSearch streamId) w.

(** What one batch of deletions does to the world. *)
Definition deleted (batch : list string) (w : World) : World :=
  let done := forEach batch deleted_one w in
  match settle_all (map (searches_delete remote) batch) with
  | Fulfilled _ => done
  | Rejected err => print (ErrorDeleting err) done
  end.

End Effects.

(** [p], run in a world where [P] holds, ends in a world where [Q]
    holds, fulfilled or rejected. *)
Definition triple {A : Type} (P : World -> Prop) (p : Promise A)
    (Q : World -> Prop) : Prop :=
  forall w, P w -> Q (snd (p w)).

(** A later pass over the ledger: the re-classification of a resumed run
    or the deletion phase, each against the API as it answers then. *)
Inductive Pass : Type :=
| Classify (remote : Remote)
| Act (remote : Remote) (argv : Script.Argv).

Definition run_pass (w : World) (p : Pass) : World :=
  match p with
  | Classify remote => snd (Script.checkUnknown remote w)
  | Act remote argv => snd (Script.deleteStreams remote argv w)
  end.

Definition run_passes (passes : list Pass) (w : World) : World :=
  fold_left run_pass passes w.

(** Every report on the console of [w'] was already on that of [w]. *)
Definition no_new_report (w w' : World) : Prop :=
  forall u i d,
    In (InfoReport u i d) (console w') -> In (InfoReport u i d) (console w).

(** The object the members of a JSON text define, one after the other. *)
Definition build (acc o : JsObject.t) : JsObject.t :=
  fold_left (fun a kv => JsObject.set a (fst kv) (snd kv)) o acc.

(** The object read so far, in every state of the reader, is a property
    list. *)
Definition reading_wf (st : JSON.State) : Prop :=
  match st with
  | JSON.Start => True
  | JSON.Open o | JSON.Comma o | JSON.Str o _ _ | JSON.Esc o _ _
  | JSON.Uni o _ _ _ _ | JSON.Colon o _ | JSON.Value o _ | JSON.Next o
  | JSON.End o => JsObject.wf o
  end.

(** ** Sample inputs *)

Module Samples.

Definition eleven : list string :=
  ["a"; "b"; "c"; "d"; "e"; "f"; "g"; "h"; "i"; "j"; "k"].

(** Twenty ids in two batches: "s3" is in the first, "s2" in the second. *)
Definition twenty : list string :=
  ["s3"; "s1"; "a"; "b"; "c"; "d"; "e"; "f"; "g"; "h";
   "s2"; "i"; "j"; "k"; "l"; "m"; "n"; "o"; "p"; "q"].

(** The ledger giving every id of a list the same status. *)
Definition ledger_of (status : string) (ids : list string) : JsObject.t :=
  map (fun i => (i, status)) ids.

(** An API where "s2" has activity, the query for "s3" is rate limited,
    every other stream is quiet, and deleting "s2" fails. *)
Definition flaky : Remote :=
  {| searches := Fulfilled [];
     ops_counts := fun i =>
       if String.eqb i "s2" then Fulfilled [0; 3; 0]%Z
       else if String.eqb i "s3" then Rejected (StatusCodeError 429)
       else Fulfilled [0; 0]%Z;
     searches_delete := fun i =>
       if String.eqb i "s2" then Rejected (StatusCodeError 500)
       else Fulfilled tt;
     writeFile_error := None |}.

(** An API where every stream is quiet and every request succeeds. *)
Definition calm : Remote :=
  {| searches := Fulfilled [];
     ops_counts := fun _ => Fulfilled [0; 0]%Z;
     searches_delete := fun _ => Fulfilled tt;
     writeFile_error := None |}.

Definition dry : Script.Argv :=
  {| Script.dryRun := true; Script.service := "" |}.

Definition live : Script.Argv :=
  {| Script.dryRun := false; Script.service := "" |}.

(** A world where nothing happened yet, with a given ledger in memory. *)
Definition holding (o : JsObject.t) : World :=
  {| ledger := o; file := None; issued := []; console := [] |}.

(** A world whose checkpoint file holds a given ledger. *)
Definition checkpoint (o : JsObject.t) : World :=
  {| ledger := JsObject.empty; file := Some (JSON.stringify o);
     issued := []; console := [] |}.

(** The checkpoint of the specification's example, and one edited by
    hand to a status the script does not know. *)
Definition abc : JsObject.t :=
  [("A", "unknown"); ("B", "inactive"); ("C", "deleted")].

Definition edited : JsObject.t :=
  [("7", "deleted"); ("42", "unknown"); ("A", "inactive"); ("B", "done")].

End Samples.

(** ** The error summary (index.js lines 203-218)

    The errors the script formats are those of the request library: a
    message, a status code and the options of the request, each of which
    may be missing.  A string is truthy when it is not empty, a number
    when it is not zero. *)

Module ErrorSummary.

Record Options : Type := {
  uri : option string
}.

Record Err : Type := {
  message : option string;
  statusCode : option Z;
  options : option Options
}.

(** The object [formatError] builds; [None] is a property not set. *)
Record Summary : Type := {
  ret_message : option string;
  ret_statusCode : option Z;
  ret_err : option Err;
  ret_uri : option string
}.

Definition truthy_string (v : option string) : bool :=
  match v with
  | Some s => negb (String.eqb s "")
  | None => false
  end.

Definition truthy_number (v : option Z) : bool :=
  match v with
  | Some n => negb (n =? 0)%Z
  | None => false
  end.

Definition formatError (err : Err) : Summary :=
  let ret_message :=
    if truthy_string (message err) then message err else None in
  let ret_statusCode :=
    if truthy_number (statusCode err) then statusCode err else None in
  let ret_err :=
    if negb (truthy_string ret_message) && negb (truthy_number ret_statusCode)
    then Some err else None in
  let ret_uri :=
    match options err with
    | Some o => if truthy_string (uri o) then uri o else None
    | None => None
    end in
  {| ret_message := ret_message; ret_statusCode := ret_statusCode;
     ret_err := ret_err; ret_uri := ret_uri |}.

End ErrorSummary.

(** ** More vocabulary *)

(** [sub] occurs in [s]. *)
Definition contains (s sub : string) : Prop :=
  exists pre post, s = (pre ++ sub ++ post)%string.

(** Every status of the ledger is one of the three the script writes. *)
Definition recognised (o : JsObject.t) : Prop :=
  forall k s,
    JsObject.get o k = Some s ->
    s = "unknown" \/ s = "inactive" \/ s = "deleted".

(** The stages of a run that follow classification: save, delete, save,
    report, and the handler of whatever was rejected. *)
Definition after_classification (remote : Remote) (argv : Script.Argv)
    (classify : Promise unit) : Promise unit :=
  catch_
    (then_ (then_ (then_ (then_
       classify
       (fun _ => Script.storeStreamStatus remote))
       (fun _ => Script.deleteStreams remote argv))
       (fun _ => Script.storeStreamStatus remote))
       (fun _ => Script.report))
    (fun err => effect (print (ErrorUncaught err))).

(** The classification of a fresh run: list, then check on a new ledger. *)
Definition fresh_classification (remote : Remote) (argv : Script.Argv)
    (youngest oldest : Z) : Promise unit :=
  then_ (Script.listStreamsRequest remote argv youngest oldest)
    (fun ids w =>
       Script.batchCheckStreamStatuses remote ids
         (with_ledger JsObject.empty w)).

(** The classification of a resumed run: load, then check the unknown. *)
Definition resumed_classification (remote : Remote) : Promise unit :=
  then_ Script.getStreamStatus (fun _ => Script.checkUnknown remote).

(** Every request of a batch succeeds. *)
Definition all_answered {A : Type} (answer : string -> Settled A)
    (batch : list string) : Prop :=
  forall i, In i batch -> exists a, answer i = Fulfilled a.

(** Some request of a batch fails. *)
Definition some_rejected {A : Type} (answer : string -> Settled A)
    (batch : list string) : Prop :=
  exists i e, In i batch /\ answer i = Rejected e.

(** ** More sample inputs *)

Module MoreSamples.

Definition twentyfive : list nat := seq 0 25.

(** Streams as the API lists them, with the window from 1000 to 2000. *)
Definition old_stream : Stream :=
  {| stream_id := "s1"; name := "checkout latency";
     query := "service IN (checkout)"; created_time := 500 |}.

Definition new_stream : Stream :=
  {| stream_id := "s2"; name := "cart errors";
     query := "service IN (cart)"; created_time := 1500 |}.

Definition load_stream : Stream :=
  {| stream_id := "s3"; name := "nightly Load-test";
     query := "service IN (checkout)"; created_time := 500 |}.

Definition edge_stream : Stream :=
  {| stream_id := "s4"; name := "cart latency";
     query := "service IN (cart)"; created_time := 1000 |}.

Definition listing : list Stream :=
  [old_stream; new_stream; load_stream; edge_stream].

(** An API that lists [listing], where "s4" has activity and everything
    else is quiet and succeeds. *)
Definition serving : Remote :=
  {| searches := Fulfilled listing;
     ops_counts := fun i =>
       if String.eqb i "s4" then Fulfilled [0; 2]%Z else Fulfilled [0; 0]%Z;
     searches_delete := fun _ => Fulfilled tt;
     writeFile_error := None |}.

(** An API whose list request is refused. *)
Definition refusing : Remote :=
  {| searches := Rejected (StatusCodeError 401);
     ops_counts := fun _ => Fulfilled [0; 0]%Z;
     searches_delete := fun _ => Fulfilled tt;
     writeFile_error := None |}.

(** A machine where the checkpoint cannot be written. *)
Definition readonly : Remote :=
  {| searches := Fulfilled listing;
     ops_counts := fun _ => Fulfilled [0; 0]%Z;
     searches_delete := fun _ => Fulfilled tt;
     writeFile_error := Some (SystemError "EACCES") |}.

Definition any_service : Script.Argv :=
  {| Script.dryRun := false; Script.service := "" |}.

Definition cart_only : Script.Argv :=
  {| Script.dryRun := false; Script.service := "cart" |}.

Definition nothing : World :=
  {| ledger := JsObject.empty; file := None; issued := []; console := [] |}.

Definition rate_limited : ErrorSummary.Err :=
  {| ErrorSummary.message := Some "429 - Too Many Requests";
     ErrorSummary.statusCode := Some 429%Z;
     ErrorSummary.options :=
       Some {| ErrorSummary.uri := Some "https://api.lightstep.com" |} |}.

Definition bare : ErrorSummary.Err :=
  {| ErrorSummary.message := Some "";
     ErrorSummary.statusCode := Some 0%Z;
     ErrorSummary.options := None |}.

End MoreSamples.

(** * Properties *)

(** ** Batching *)

Module BatcherFacts.
Import Batcher Samples.

Lemma firstn_plus {A : Type} (a b : nat) (l : list A) :
  firstn (a + b) l = firstn a l ++ firstn b (skipn a l).
Proof.
  revert l; induction a as [|a IH]; intros l; simpl; [reflexivity|].
  destruct l as [|x l]; simpl.
  - now rewrite firstn_nil.
  - now rewrite IH.
Qed.

Lemma skipn_plus {A : Type} (a b : nat) (l : list A) :
  skipn (a + b) l = skipn b (skipn a l).
Proof.
  revert l; induction a as [|a IH]; intros l; simpl; [reflexivity|].
  destruct l as [|x l]; simpl; [now rewrite skipn_nil | apply IH].
Qed.

(** Once a batch has been pushed, the recursion appends the whole batches
    that still fit after [curr] and nothing else. *)
Lemma split_from {A : Type} (all : list A) :
  forall n curr res,
    length all - curr <= n ->
    res <> [] ->
    concat (split all (Some curr) (Some res)) =
    concat res
      ++ firstn (BATCH_SIZE * ((length all - curr) / BATCH_SIZE))
           (skipn curr all).
Proof.
  induction n as [|n IH]; intros curr res Hn Hres;
    rewrite split_equation_1; cbv zeta;
    assert (Hlen : (length res =? 0) = false)
      by (apply Nat.eqb_neq; destruct res; simpl; congruence);
    rewrite Hlen, andb_false_r;
    destruct (sumbool_of_bool (length all <? curr + BATCH_SIZE)) as [Hlt|Hge].
  - apply Nat.ltb_lt in Hlt. unfold BATCH_SIZE in *.
    rewrite Nat.div_small by lia. now rewrite Nat.mul_0_r, app_nil_r.
  - apply Nat.ltb_ge in Hge. unfold BATCH_SIZE in *. lia.
  - apply Nat.ltb_lt in Hlt. unfold BATCH_SIZE in *.
    rewrite Nat.div_small by lia. now rewrite Nat.mul_0_r, app_nil_r.
  - apply Nat.ltb_ge in Hge.
    rewrite IH; [|unfold BATCH_SIZE in *; lia|now destruct res].
    rewrite concat_app; cbn [concat]. rewrite app_nil_r, <- app_assoc. f_equal.
    unfold slice.
    replace (curr + BATCH_SIZE - curr) with BATCH_SIZE by lia.
    replace ((length all - curr) / BATCH_SIZE)
      with (S ((length all - (curr + BATCH_SIZE)) / BATCH_SIZE)).
    + rewrite Nat.mul_succ_r, (Nat.add_comm (_ * _) BATCH_SIZE), firstn_plus.
      now rewrite skipn_plus.
    + replace (length all - curr)
        with (length all - (curr + BATCH_SIZE) + 1 * BATCH_SIZE) by lia.
      rewrite Nat.div_add by (unfold BATCH_SIZE; lia). lia.
Qed.

(** Fewer ids than a batch: the input itself is the only batch. *)
Lemma split_short {A : Type} (all : list A) :
  length all < BATCH_SIZE -> split all None None = [all].
Proof.
  intros H. rewrite split_equation_1; cbv zeta; cbn [Nat.add length].
  apply Nat.ltb_lt in H. now rewrite H.
Qed.

(** What the batches hold, in order: everything for a short input, the
    longest prefix made of whole batches otherwise. *)
Lemma split_concat {A : Type} (all : list A) :
  concat (split all None None) =
  if length all <? BATCH_SIZE then all
  else firstn (BATCH_SIZE * (length all / BATCH_SIZE)) all.
Proof.
  destruct (length all <? BATCH_SIZE) eqn:Hlt.
  - apply Nat.ltb_lt in Hlt. rewrite split_short by assumption.
    cbn [concat]. apply app_nil_r.
  - rewrite split_equation_1; cbv zeta; cbn [Nat.add].
    destruct (sumbool_of_bool (length all <? BATCH_SIZE)) as [H|_];
      [congruence|].
    rewrite Hlt. cbn [andb app].
    apply Nat.ltb_ge in Hlt.
    rewrite (@split_from A all (length all)) by (try lia; congruence).
    cbn [concat]. rewrite app_nil_r. unfold slice.
    replace (BATCH_SIZE - 0) with BATCH_SIZE by lia.
    rewrite <- firstn_plus.
    replace (length all / BATCH_SIZE)
      with (S ((length all - BATCH_SIZE) / BATCH_SIZE)).
    + now rewrite Nat.mul_succ_r, (Nat.add_comm (_ * _) BATCH_SIZE).
    + replace (length all) with (length all - BATCH_SIZE + 1 * BATCH_SIZE)
        at 2 by lia.
      rewrite Nat.div_add by (unfold BATCH_SIZE; lia). lia.
Qed.

(** The batches never hold anything but a prefix of the input. *)
Lemma split_concat_prefix {A : Type} (all : list A) :
  exists rest, all = concat (split all None None) ++ rest.
Proof.
  rewrite split_concat. destruct (length all <? BATCH_SIZE).
  - exists []. now rewrite app_nil_r.
  - eexists. symmetry. apply firstn_skipn.
Qed.

(** The input is covered exactly when it is short or made of whole
    batches. *)
Lemma split_concat_complete_iff {A : Type} (all : list A) :
  concat (split all None None) = all <->
  length all < BATCH_SIZE \/ length all mod BATCH_SIZE = 0.
Proof.
  rewrite split_concat. destruct (length all <? BATCH_SIZE) eqn:Hlt.
  - apply Nat.ltb_lt in Hlt. tauto.
  - apply Nat.ltb_ge in Hlt. split.
    + intros H. right. apply (f_equal (@length A)) in H.
      rewrite length_firstn in H.
      pose proof (Nat.div_mod_eq (length all) BATCH_SIZE). lia.
    + intros [H|H]; [lia|].
      pose proof (Nat.div_mod_eq (length all) BATCH_SIZE) as E.
      rewrite H, Nat.add_0_r in E. rewrite <- E. apply firstn_all.
Qed.

Lemma split_exactly_one_batch {A : Type} (all : list A) :
  length all <= BATCH_SIZE -> split all None None = [all].
Proof.
  intros H. destruct (Nat.eq_dec (length all) BATCH_SIZE) as [E|E];
    [|apply split_short; lia].
  rewrite split_equation_1; cbv zeta; cbn [Nat.add app]. rewrite E.
  change (BATCH_SIZE <? BATCH_SIZE) with false. cbn [andb sumbool_of_bool].
  rewrite split_equation_1; cbv zeta. rewrite E.
  change (BATCH_SIZE <? BATCH_SIZE + BATCH_SIZE) with true.
  cbn [length Nat.eqb andb sumbool_of_bool].
  unfold slice. f_equal.
  change (BATCH_SIZE - 0) with BATCH_SIZE.
  cbn [skipn]. rewrite <- E. apply firstn_all.
Qed.

(** C1 (code defect).  Eleven ids make one batch of the first ten: the
    eleventh is in no batch, so the batches put together are not the
    input. *)
Theorem split_eleven_drops_last :
  split eleven None None =
    [["a"; "b"; "c"; "d"; "e"; "f"; "g"; "h"; "i"; "j"]]
  /\ concat (split eleven None None) <> eleven
  /\ ~ In "k" (concat (split eleven None None)).
Proof.
  assert (E : split eleven None None =
              [["a"; "b"; "c"; "d"; "e"; "f"; "g"; "h"; "i"; "j"]])
    by (vm_compute; reflexivity).
  rewrite E. split; [reflexivity|]. split.
  - discriminate.
  - simpl. intros H. repeat (destruct H as [H|H]; [discriminate|]). exact H.
Qed.

(** C2, as the claim states it, fails: the empty input does not give an
    empty sequence of batches. *)
Lemma split_empty_is_not_no_batches :
  split (@nil string) None None <> [].
Proof.
  rewrite split_short by (simpl; unfold BATCH_SIZE; lia). discriminate.
Qed.

(** C2 (amended).  For the empty input, split returns exactly one batch,
    and that batch is empty. *)
Theorem split_empty_one_empty_batch (A : Type) :
  split (@nil A) None None = [[]].
Proof. apply split_short. simpl. unfold BATCH_SIZE. lia. Qed.

End BatcherFacts.

(** ** The ledger as a map *)

Module JsObjectFacts.
Import JsObject.

Lemma has_true_iff o k : has o k = true <-> get o k <> None.
Proof. unfold has. destruct (get o k); split; congruence. Qed.

Lemma has_false_iff o k : has o k = false <-> get o k = None.
Proof. unfold has. destruct (get o k); split; congruence. Qed.

Lemma get_update o k v j :
  get o k <> None ->
  get (update o k v) j = if String.eqb k j then Some v else get o j.
Proof.
  induction o as [|[k' v'] o IH]; simpl; intros H; [congruence|].
  destruct (String.eqb_spec k' k) as [->|Hne]; simpl.
  - destruct (String.eqb_spec k j); reflexivity.
  - rewrite IH by assumption.
    destruct (String.eqb_spec k' j) as [->|]; [|reflexivity].
    destruct (String.eqb_spec k j); congruence.
Qed.

Lemma get_insert_index n o k v j :
  get o k = None ->
  get (insert_index n k v o) j = if String.eqb k j then Some v else get o j.
Proof.
  induction o as [|[k' v'] o IH]; simpl; intros H.
  - reflexivity.
  - destruct (String.eqb_spec k' k) as [->|Hne]; [discriminate|].
    destruct (array_index k') as [n'|]; [destruct (n' <? n)%N|]; simpl;
      try reflexivity.
    rewrite IH by assumption.
    destruct (String.eqb_spec k' j) as [->|]; [|reflexivity].
    destruct (String.eqb_spec k j); congruence.
Qed.

Lemma get_app_new o k v j :
  get o k = None ->
  get (o ++ [(k, v)]) j = if String.eqb k j then Some v else get o j.
Proof.
  induction o as [|[k' v'] o IH]; simpl; intros H.
  - reflexivity.
  - destruct (String.eqb_spec k' k) as [->|Hne]; [discriminate|].
    rewrite IH by assumption.
    destruct (String.eqb_spec k' j) as [->|]; [|reflexivity].
    destruct (String.eqb_spec k j); congruence.
Qed.

(** Reading after [o[k] = v]. *)
Lemma get_set o k v j :
  get (set o k v) j = if String.eqb k j then Some v else get o j.
Proof.
  unfold set. destruct (has o k) eqn:H.
  - apply get_update. now apply has_true_iff.
  - apply has_false_iff in H.
    destruct (array_index k);
      [now apply get_insert_index|now apply get_app_new].
Qed.

(** Reading after [delete o[k]]. *)
Lemma get_delete o k j :
  get (delete o k) j = if String.eqb k j then None else get o j.
Proof.
  induction o as [|[k' v'] o IH]; simpl.
  - now destruct (String.eqb k j).
  - destruct (String.eqb_spec k' k) as [->|Hne]; simpl.
    + rewrite IH. destruct (String.eqb_spec k j); reflexivity.
    + rewrite IH. destruct (String.eqb_spec k' j) as [->|]; [|reflexivity].
      destruct (String.eqb_spec k j); congruence.
Qed.

(** [Object.keys] lists exactly the names that read as defined. *)
Lemma in_keys_iff o k : In k (keys o) <-> get o k <> None.
Proof.
  unfold keys. induction o as [|[k' v'] o IH]; simpl.
  - split; [tauto|congruence].
  - destruct (String.eqb_spec k' k) as [->|Hne].
    + split; [congruence|auto].
    + rewrite <- IH. split; [intros [?|?]; congruence|auto].
Qed.

End JsObjectFacts.

(** ** Promises *)

Module PromiseFacts.

Lemma Promise_all_map {A B : Type} (p : A -> Promise B) (r : A -> Settled B)
    (g : A -> World -> World) :
  (forall x w, p x w = (r x, g x w)) ->
  forall xs w,
    Promise_all (map p xs) w = (settle_all (map r xs), forEach xs g w).
Proof.
  intros Hp xs. induction xs as [|x xs IH]; intros w; simpl; [reflexivity|].
  rewrite Hp, IH. reflexivity.
Qed.

Lemma settle_all_fulfilled {A B : Type} (r : A -> Settled B) xs l :
  settle_all (map r xs) = Fulfilled l ->
  Forall2 (fun x a => r x = Fulfilled a) xs l.
Proof.
  revert l. induction xs as [|x xs IH]; simpl; intros l H.
  - injection H as <-. constructor.
  - destruct (r x) eqn:Hx; [|discriminate].
    destruct (settle_all (map r xs)) eqn:Hs; [|discriminate].
    injection H as <-. constructor; auto.
Qed.

Lemma settle_all_ok {A B : Type} (r : A -> Settled B) xs :
  (forall x, In x xs -> exists a, r x = Fulfilled a) ->
  exists l, settle_all (map r xs) = Fulfilled l.
Proof.
  induction xs as [|x xs IH]; simpl; intros H; [eauto|].
  destruct (H x (or_introl eq_refl)) as [a ->].
  destruct IH as [l ->]; eauto.
Qed.

Lemma settle_all_rejected {A B : Type} (r : A -> Settled B) xs x e :
  In x xs -> r x = Rejected e ->
  exists e', settle_all (map r xs) = Rejected e'.
Proof.
  induction xs as [|y xs IH]; simpl; intros Hin Hx; [tauto|].
  destruct Hin as [->|Hin].
  - rewrite Hx. eauto.
  - destruct (IH Hin Hx) as [e' ->]. destruct (r y); eauto.
Qed.

(** Nothing is rejected by [Promise.map] when no callback is. *)
Lemma Promise_map_fulfilled {A : Type} (f : A -> Promise unit)
    (g : A -> World -> World) :
  (forall x w, f x w = (Fulfilled tt, g x w)) ->
  forall xs w,
    Promise_map xs f w = (Fulfilled (map (fun _ => tt) xs), forEach xs g w).
Proof.
  intros Hf xs. induction xs as [|x xs IH]; intros w; simpl; [reflexivity|].
  unfold then_ at 1. rewrite Hf. unfold then_. rewrite IH. reflexivity.
Qed.

End PromiseFacts.

(** ** The pipelines on the ledger *)

Module ScriptFacts.
Import JsObject JsObjectFacts PromiseFacts Batcher BatcherFacts Script.

Lemma forEach_assign_get {A : Type} (f : A -> string) v xs w j :
  get (ledger (forEach xs (fun x => assign (f x) v) w)) j =
  if existsb (fun x => String.eqb (f x) j) xs then Some v
  else get (ledger w) j.
Proof.
  revert w. induction xs as [|x xs IH]; intros w; simpl; [reflexivity|].
  rewrite IH. simpl. rewrite get_set.
  destruct (existsb _ xs); [now rewrite orb_true_r|].
  now rewrite orb_false_r.
Qed.

Lemma forEach_remove_get {A : Type} (f : A -> string) xs w j :
  get (ledger (forEach xs (fun x => remove (f x)) w)) j =
  if existsb (fun x => String.eqb (f x) j) xs then None
  else get (ledger w) j.
Proof.
  revert w. induction xs as [|x xs IH]; intros w; simpl; [reflexivity|].
  rewrite IH. simpl. rewrite get_delete.
  destruct (existsb _ xs); [now rewrite orb_true_r|].
  now rewrite orb_false_r.
Qed.

Lemma forEach_ledger_only {A : Type} (g : A -> World -> World) xs :
  (forall x w, ledger (g x w) = ledger w) ->
  forall w, ledger (forEach xs g w) = ledger w.
Proof.
  intros Hg. induction xs as [|x xs IH]; intros w; simpl; [reflexivity|].
  now rewrite IH, Hg.
Qed.

Lemma existsb_eqb_in (xs : list string) j :
  existsb (fun x => String.eqb x j) xs = true <-> In j xs.
Proof.
  rewrite existsb_exists. split.
  - intros [x [Hin Hx]]. apply String.eqb_eq in Hx. now subst.
  - intros H. exists j. split; [assumption|apply String.eqb_refl].
Qed.

Lemma existsb_eqb_not_in (xs : list string) j :
  existsb (fun x => String.eqb x j) xs = false <-> ~ In j xs.
Proof.
  rewrite <- existsb_eqb_in. destruct (existsb _ xs); split; congruence.
Qed.

Lemma NoDup_app_not_in {A : Type} (l l' : list A) a :
  NoDup (l ++ l') -> In a l -> ~ In a l'.
Proof.
  induction l as [|x l IH]; simpl; intros Hnd Ha; [contradiction|].
  inversion Hnd as [|? ? Hx Hnd']; subst. destruct Ha as [->|Ha]; [|auto].
  intros H. apply Hx, in_or_app. now right.
Qed.

Lemma busy_iff counts :
  existsb (fun p => (0 <? p)%Z) counts = true <-> busy counts.
Proof.
  unfold busy. rewrite existsb_exists. split.
  - intros [p [Hin Hp]]. exists p. split; [assumption|now apply Z.ltb_lt].
  - intros [p [Hin Hp]]. exists p. split; [assumption|now apply Z.ltb_lt].
Qed.

Lemma quiet_iff counts :
  existsb (fun p => (0 <? p)%Z) counts = false <-> quiet counts.
Proof.
  unfold quiet. split.
  - intros H p Hin. destruct (Z.ltb_spec 0 p) as [Hp|Hp]; [|assumption].
    assert (existsb (fun p => (0 <? p)%Z) counts = true); [|congruence].
    apply existsb_exists. exists p. split; [assumption|now apply Z.ltb_lt].
  - intros H. destruct (existsb _ counts) eqn:E; [|reflexivity].
    apply existsb_exists in E. destruct E as [p [Hin Hp]].
    apply Z.ltb_lt in Hp. specialize (H p Hin). lia.
Qed.

Section BatchEffects.

Variable remote : Remote.

Lemma timeseriesRequest_run streamId w :
  timeseriesRequest remote streamId w =
  (activity_of remote streamId, send (GetTimeseries streamId) w).
Proof.
  unfold timeseriesRequest, then_, activity_of.
  destruct (ops_counts remote streamId); reflexivity.
Qed.

(** A batch of the classifier is never rejected. *)
Lemma filterBatch_run batch w :
  filterBatch remote batch w = (Fulfilled tt, checked remote batch w).
Proof.
  unfold filterBatch, catch_, then_, checked.
  rewrite (Promise_all_map _ _ _ (timeseriesRequest_run)).
  destruct (settle_all _); reflexivity.
Qed.

Lemma sent_ledger batch w :
  ledger (forEach batch (fun i => send (GetTimeseries i)) w) = ledger w.
Proof. now apply forEach_ledger_only. Qed.

Lemma fulfilled_sound batch res :
  Forall2 (fun x a => activity_of remote x = Fulfilled a) batch res ->
  forall r, In r res ->
    In (id r) batch /\
    exists counts, ops_counts remote (id r) = Fulfilled counts /\
                   active r = existsb (fun p => (0 <? p)%Z) counts.
Proof.
  induction 1 as [|x a xs l Hx _ IH]; simpl; [tauto|].
  intros r [<-|Hr].
  - unfold activity_of in Hx.
    destruct (ops_counts remote x) as [counts|] eqn:E; [|discriminate].
    injection Hx as <-. simpl. split; [now left|]. eauto.
  - destruct (IH r Hr) as [Hin Hc]. split; [now right|assumption].
Qed.

Lemma fulfilled_complete batch res :
  Forall2 (fun x a => activity_of remote x = Fulfilled a) batch res ->
  forall x, In x batch -> exists r, In r res /\ id r = x.
Proof.
  induction 1 as [|x a xs l Hx _ IH]; simpl; [tauto|].
  intros y [<-|Hy].
  - exists a. split; [now left|].
    unfold activity_of in Hx. destruct (ops_counts remote x); [|discriminate].
    now injection Hx as <-.
  - destruct (IH y Hy) as [r [Hr E]]. exists r. split; [now right|assumption].
Qed.

(** A batch touches the entries of its own ids only. *)
Lemma checked_frame batch w j :
  ~ In j batch -> get (ledger (checked remote batch w)) j = get (ledger w) j.
Proof.
  intros Hj. unfold checked.
  destruct (settle_all _) as [res|err] eqn:Hs.
  - apply settle_all_fulfilled in Hs.
    pose proof (fulfilled_sound Hs) as Hid.
    rewrite forEach_remove_get, forEach_assign_get, sent_ledger.
    assert (Hno : forall p, existsb (fun r => String.eqb (id r) j)
                              (filter p res) = false).
    { intros p. apply not_true_is_false. intros H.
      apply existsb_exists in H. destruct H as [r [Hr E]].
      apply filter_In in Hr. apply String.eqb_eq in E. subst j.
      apply Hj, (Hid r), Hr. }
    now rewrite !Hno.
  - rewrite forEach_assign_get. simpl. rewrite sent_ledger.
    now replace (existsb _ batch) with false
      by (symmetry; now apply existsb_eqb_not_in).
Qed.

(** A batch whose requests all succeed: inactive or removed. *)
Lemma checked_fulfilled batch w :
  (forall i, In i batch ->
     exists counts, ops_counts remote i = Fulfilled counts) ->
  forall j counts, In j batch -> ops_counts remote j = Fulfilled counts ->
    (quiet counts ->
     get (ledger (checked remote batch w)) j = Some "inactive") /\
    (busy counts -> get (ledger (checked remote batch w)) j = None).
Proof.
  intros Hall j counts Hj Hc. unfold checked.
  destruct (@settle_all_ok _ _ (activity_of remote) batch) as [res Hs].
  { intros x Hx. destruct (Hall x Hx) as [c E]. unfold activity_of.
    rewrite E. eauto. }
  rewrite Hs. apply settle_all_fulfilled in Hs.
  rewrite forEach_remove_get, forEach_assign_get.
  destruct (fulfilled_complete Hs j Hj) as [r [Hr E]].
  assert (Hact : forall r', In r' res -> id r' = j ->
                   active r' = existsb (fun p => (0 <? p)%Z) counts).
  { intros r' Hr' E'. destruct (fulfilled_sound Hs r' Hr') as [_ [c [Hc' ->]]].
    rewrite E', Hc in Hc'. now injection Hc' as <-. }
  split; intros Ha.
  - apply quiet_iff in Ha.
    replace (existsb _ (filter (fun s => active s) res)) with false.
    replace (existsb _ (filter (fun s => negb (active s)) res)) with true.
    reflexivity.
    + symmetry. apply existsb_exists. exists r. split.
      * apply filter_In. split; [assumption|].
        rewrite (Hact r Hr E), Ha. reflexivity.
      * now apply String.eqb_eq.
    + symmetry. apply not_true_is_false. intros H.
      apply existsb_exists in H. destruct H as [r' [Hr' E']].
      apply filter_In in Hr'. destruct Hr' as [Hr' Hb].
      apply String.eqb_eq in E'. rewrite (Hact r' Hr' E') in Hb. congruence.
  - apply busy_iff in Ha.
    replace (existsb _ (filter (fun s => active s) res)) with true.
    reflexivity.
    symmetry. apply existsb_exists. exists r. split.
    + apply filter_In. split; [assumption|]. now rewrite (Hact r Hr E).
    + now apply String.eqb_eq.
Qed.

(** A batch with a failed request: every id of the batch is unknown. *)
Lemma checked_rejected batch w i e :
  In i batch -> ops_counts remote i = Rejected e ->
  forall j, In j batch ->
    get (ledger (checked remote batch w)) j = Some "unknown".
Proof.
  intros Hi He j Hj. unfold checked.
  destruct (@settle_all_rejected _ _ (activity_of remote) batch i e Hi)
    as [e' ->].
  { unfold activity_of. now rewrite He. }
  rewrite forEach_assign_get.
  now replace (existsb _ batch) with true
    by (symmetry; now apply existsb_eqb_in).
Qed.

(** The batches of one classification, one after the other. *)
Lemma batchCheckStreamStatuses_run ids w :
  batchCheckStreamStatuses remote ids w =
  (Fulfilled tt, forEach (split ids None None) (checked remote) w).
Proof.
  unfold batchCheckStreamStatuses, then_.
  now rewrite (Promise_map_fulfilled _ _ filterBatch_run).
Qed.

(** What a batch leaves for one of its own ids does not depend on what
    was there before. *)
Lemma checked_own batch w w' j :
  In j batch ->
  get (ledger (checked remote batch w)) j =
  get (ledger (checked remote batch w')) j.
Proof.
  intros Hj. unfold checked.
  destruct (settle_all _) as [res|err] eqn:Hs.
  - apply settle_all_fulfilled in Hs.
    destruct (fulfilled_complete Hs j Hj) as [r [Hr E]].
    rewrite !forEach_remove_get, !forEach_assign_get.
    destruct (existsb _ (filter (fun s => active s) res)) eqn:Ea;
      [reflexivity|].
    replace (existsb _ (filter (fun s => negb (active s)) res)) with true;
      [reflexivity|].
    symmetry. apply existsb_exists. exists r.
    split; [|now apply String.eqb_eq].
    apply filter_In. split; [assumption|].
    destruct (active r) eqn:Ha; [|reflexivity].
    assert (H : existsb (fun r0 => String.eqb (id r0) j)
                  (filter (fun s => active s) res) = true); [|congruence].
    apply existsb_exists. exists r. split; [|now apply String.eqb_eq].
    apply filter_In. now split.
  - rewrite !forEach_assign_get.
    now replace (existsb _ batch) with true
      by (symmetry; now apply existsb_eqb_in).
Qed.

Lemma forEach_checked_frame batches w j :
  ~ In j (concat batches) ->
  get (ledger (forEach batches (checked remote) w)) j = get (ledger w) j.
Proof.
  revert w. induction batches as [|b bs IH]; intros w Hj; simpl;
    [reflexivity|].
  simpl in Hj. rewrite in_app_iff in Hj.
  rewrite IH by tauto. apply checked_frame. tauto.
Qed.

(** With no id in two batches, the last word on an id is its batch's. *)
Lemma forEach_checked_own batches w b j :
  NoDup (concat batches) -> In b batches -> In j b ->
  get (ledger (forEach batches (checked remote) w)) j =
  get (ledger (checked remote b w)) j.
Proof.
  revert w. induction batches as [|b0 bs IH]; intros w Hnd Hb Hj; simpl;
    [contradiction|].
  simpl in Hnd. destruct Hb as [->|Hb].
  - apply forEach_checked_frame.
    now apply NoDup_app_not_in with (l := b).
  - rewrite (IH (checked remote b0 w));
      [|eapply NoDup_app_remove_l; eauto|assumption..].
    now apply checked_own.
Qed.

Lemma concat_split_incl {A : Type} (ids : list A) x :
  In x (concat (split ids None None)) -> In x ids.
Proof.
  intros H. destruct (split_concat_prefix ids) as [rest E].
  rewrite E. apply in_or_app. now left.
Qed.

Lemma concat_split_NoDup {A : Type} (ids : list A) :
  NoDup ids -> NoDup (concat (split ids None None)).
Proof.
  intros H. destruct (split_concat_prefix ids) as [rest E].
  rewrite E in H. eapply NoDup_app_remove_r; eauto.
Qed.

(** Classification leaves alone every id it was not given. *)
Lemma batchCheckStreamStatuses_frame ids w j :
  ~ In j ids ->
  get (ledger (snd (batchCheckStreamStatuses remote ids w))) j =
  get (ledger w) j.
Proof.
  intros Hj. rewrite batchCheckStreamStatuses_run. simpl.
  apply forEach_checked_frame. intros H. apply Hj. now apply concat_split_incl.
Qed.

Lemma checked_issued batch w :
  issued (checked remote batch w) = issued w ++ map GetTimeseries batch.
Proof.
  assert (Hsent : forall xs w0,
            issued (forEach xs (fun i => send (GetTimeseries i)) w0) =
            issued w0 ++ map GetTimeseries xs).
  { induction xs as [|x xs IH]; intros w0; simpl; [now rewrite app_nil_r|].
    rewrite IH. simpl. now rewrite <- app_assoc. }
  assert (Hsame : forall (A : Type) (g : A -> World -> World) xs,
            (forall x w0, issued (g x w0) = issued w0) ->
            forall w0, issued (forEach xs g w0) = issued w0).
  { intros A g xs Hg. induction xs as [|x xs IH]; intros w0; simpl;
      [reflexivity|]. now rewrite IH, Hg. }
  unfold checked. destruct (settle_all _).
  - rewrite !Hsame by reflexivity. apply Hsent.
  - rewrite Hsame by reflexivity. simpl. apply Hsent.
Qed.

Lemma forEach_checked_issued batches w :
  issued (forEach batches (checked remote) w) =
  issued w ++ map GetTimeseries (concat batches).
Proof.
  revert w. induction batches as [|b bs IH]; intros w; simpl;
    [now rewrite app_nil_r|].
  now rewrite IH, checked_issued, map_app, app_assoc.
Qed.

(** *** Deleting *)

(** A batch of deletions is never rejected. *)
Lemma deleteBatch_run batch w :
  deleteBatch remote batch w = (Fulfilled tt, deleted remote batch w).
Proof.
  unfold deleteBatch, catch_, then_ at 1, deleted.
  rewrite (@Promise_all_map _ _ _ (searches_delete remote)
             (deleted_one remote)).
  - destruct (settle_all _); reflexivity.
  - intros x w0. unfold then_, deleteStreamRequest, deleted_one, confirmed.
    destruct (searches_delete remote x) as [[]|]; reflexivity.
Qed.

Lemma forEach_deleted_one_get xs w j :
  get (ledger (forEach xs (deleted_one remote) w)) j =
  if existsb (fun i => String.eqb i j && confirmed remote i) xs
  then Some "deleted"
  else get (ledger w) j.
Proof.
  revert w. induction xs as [|x xs IH]; intros w; simpl; [reflexivity|].
  rewrite IH. destruct (existsb _ xs); [now rewrite orb_true_r|].
  rewrite orb_false_r. unfold deleted_one.
  destruct (confirmed remote x); simpl.
  - rewrite get_set, andb_true_r. reflexivity.
  - now rewrite andb_false_r.
Qed.

Lemma deleted_get batch w j :
  get (ledger (deleted remote batch w)) j =
  if existsb (fun i => String.eqb i j && confirmed remote i) batch
  then Some "deleted" else get (ledger w) j.
Proof.
  unfold deleted. destruct (settle_all _); simpl;
    apply forEach_deleted_one_get.
Qed.

Lemma forEach_deleted_get batches w j :
  get (ledger (forEach batches (deleted remote) w)) j =
  if existsb (fun i => String.eqb i j && confirmed remote i) (concat batches)
  then Some "deleted" else get (ledger w) j.
Proof.
  revert w. induction batches as [|b bs IH]; intros w; simpl; [reflexivity|].
  rewrite IH, existsb_app, deleted_get.
  destruct (existsb _ (concat bs)); [now rewrite orb_true_r|].
  now rewrite orb_false_r.
Qed.

Lemma confirmed_in xs j :
  existsb (fun i => String.eqb i j && confirmed remote i) xs = true <->
  In j xs /\ confirmed remote j = true.
Proof.
  rewrite existsb_exists. split.
  - intros [i [Hin H]]. apply andb_true_iff in H. destruct H as [E Hc].
    apply String.eqb_eq in E. subst i. tauto.
  - intros [Hin Hc]. exists j. now rewrite String.eqb_refl, Hc.
Qed.

Lemma batchDeleteStreams_run ids w :
  batchDeleteStreams remote ids w =
  (Fulfilled tt, forEach (split ids None None) (deleted remote) w).
Proof.
  unfold batchDeleteStreams, then_.
  now rewrite (Promise_map_fulfilled _ _ deleteBatch_run).
Qed.

(** Deleting leaves alone every id it was not given. *)
Lemma batchDeleteStreams_frame ids w j :
  ~ In j ids ->
  get (ledger (snd (batchDeleteStreams remote ids w))) j = get (ledger w) j.
Proof.
  intros Hj. rewrite batchDeleteStreams_run. simpl.
  rewrite forEach_deleted_get.
  destruct (existsb _ _) eqn:E; [|reflexivity].
  apply confirmed_in in E. destruct E as [Hin _].
  exfalso. apply Hj. now apply concat_split_incl.
Qed.

Lemma deleted_issued batch w :
  issued (deleted remote batch w) = issued w ++ map DeleteSearch batch.
Proof.
  assert (H : forall xs w0, issued (forEach xs (deleted_one remote) w0) =
                            issued w0 ++ map DeleteSearch xs).
  { induction xs as [|x xs IH]; intros w0; simpl; [now rewrite app_nil_r|].
    rewrite IH. unfold deleted_one. destruct (confirmed remote x); simpl;
      now rewrite <- app_assoc. }
  unfold deleted. destruct (settle_all _); simpl; apply H.
Qed.

Lemma forEach_deleted_issued batches w :
  issued (forEach batches (deleted remote) w) =
  issued w ++ map DeleteSearch (concat batches).
Proof.
  revert w. induction batches as [|b bs IH]; intros w; simpl;
    [now rewrite app_nil_r|].
  now rewrite IH, deleted_issued, map_app, app_assoc.
Qed.

(** *** The order in which the batches finish *)

Lemma concat_Permutation {A : Type} (ls ls' : list (list A)) :
  Permutation ls ls' -> Permutation (concat ls) (concat ls').
Proof.
  induction 1 as [|x l l' _ IH|x y l|l l' l'' _ IH1 _ IH2]; simpl.
  - constructor.
  - now apply Permutation_app_head.
  - rewrite !app_assoc. apply Permutation_app_tail, Permutation_app_comm.
  - now transitivity (concat l').
Qed.

(** Batches of distinct ids may finish in any order: the entries of the
    ledger come out the same. *)
Lemma forEach_checked_any_order batches batches' w j :
  NoDup (concat batches) -> Permutation batches batches' ->
  get (ledger (forEach batches (checked remote) w)) j =
  get (ledger (forEach batches' (checked remote) w)) j.
Proof.
  intros Hnd Hp.
  assert (Hnd' : NoDup (concat batches'))
    by (eapply Permutation_NoDup; [apply concat_Permutation|]; eauto).
  destruct (in_dec string_dec j (concat batches)) as [Hj|Hj].
  - apply in_concat in Hj. destruct Hj as [b [Hb Hjb]].
    rewrite (@forEach_checked_own batches w b j Hnd Hb Hjb).
    rewrite (@forEach_checked_own batches' w b j Hnd'
               (Permutation_in _ Hp Hb) Hjb).
    reflexivity.
  - rewrite !forEach_checked_frame; [reflexivity| |assumption].
    intros H. apply Hj.
    eapply Permutation_in; [|exact H].
    apply Permutation_sym, concat_Permutation, Hp.
Qed.

(** So may the batches of deletions. *)
Lemma forEach_deleted_any_order batches batches' w j :
  Permutation batches batches' ->
  get (ledger (forEach batches (deleted remote) w)) j =
  get (ledger (forEach batches' (deleted remote) w)) j.
Proof.
  intros Hp. rewrite !forEach_deleted_get.
  assert (H : existsb (fun i => String.eqb i j && confirmed remote i)
                (concat batches) =
              existsb (fun i => String.eqb i j && confirmed remote i)
                (concat batches')); [|now rewrite H].
  apply eq_true_iff_eq. rewrite !confirmed_in.
  split; intros [Hin Hc]; (split; [|assumption]);
    (eapply Permutation_in; [|exact Hin]).
  - now apply concat_Permutation.
  - now apply Permutation_sym, concat_Permutation.
Qed.

End BatchEffects.
End ScriptFacts.

(** ** Classification and deletion, batch by batch *)

Section BatchClaims.
Import JsObject JsObjectFacts PromiseFacts Batcher BatcherFacts Script.
Import ScriptFacts.

Variable remote : Remote.

(** C3.  When every activity query of a batch succeeds, the batch is
    fulfilled; each of its ids whose query shows no activity in the
    window reads "inactive" afterwards, each of its ids whose query shows
    activity is absent from the ledger (it reads as undefined, so it is
    not among [Object.keys] under any status), and every id outside the
    batch reads as before. *)
Theorem filterBatch_classifies (batch : list string) (w : World) :
  (forall i, In i batch ->
     exists counts, ops_counts remote i = Fulfilled counts) ->
  let w' := snd (filterBatch remote batch w) in
  fst (filterBatch remote batch w) = Fulfilled tt /\
  (forall j counts,
     In j batch -> ops_counts remote j = Fulfilled counts ->
     (quiet counts -> get (ledger w') j = Some "inactive") /\
     (busy counts -> get (ledger w') j = None /\ ~ In j (keys (ledger w')))) /\
  (forall j, ~ In j batch -> get (ledger w') j = get (ledger w) j).
Proof.
  intros Hall. rewrite filterBatch_run. simpl. split; [reflexivity|]. split.
  - intros j counts Hj Hc.
    destruct (@checked_fulfilled remote batch w Hall j counts Hj Hc) as [Hq Hb].
    split; [assumption|]. intros H. specialize (Hb H). split; [assumption|].
    rewrite in_keys_iff. congruence.
  - intros j Hj. now apply checked_frame.
Qed.

(** C4.  When a query of a batch fails, the batch is still fulfilled (the
    error stays inside), every id of the batch reads "unknown" and every
    id outside the batch reads as before.  In a whole classification over
    distinct ids, the ids of the failing batch read "unknown" at the end
    and each batch whose queries all succeed has its own ids inactive or
    removed as their queries say. *)
Theorem classify_failure_contained (batch : list string) (i : string)
    (e : JsError) :
  In i batch -> ops_counts remote i = Rejected e ->
  (forall w,
     let w' := snd (filterBatch remote batch w) in
     fst (filterBatch remote batch w) = Fulfilled tt /\
     (forall j, In j batch -> get (ledger w') j = Some "unknown") /\
     (forall j, ~ In j batch -> get (ledger w') j = get (ledger w) j)) /\
  (forall ids w,
     NoDup ids -> In batch (split ids None None) ->
     let w' := snd (batchCheckStreamStatuses remote ids w) in
     fst (batchCheckStreamStatuses remote ids w) = Fulfilled tt /\
     (forall j, In j batch -> get (ledger w') j = Some "unknown") /\
     (forall b,
        In b (split ids None None) ->
        (forall k, In k b -> exists c, ops_counts remote k = Fulfilled c) ->
        forall j c,
          In j b -> ops_counts remote j = Fulfilled c ->
          (quiet c -> get (ledger w') j = Some "inactive") /\
          (busy c -> get (ledger w') j = None))).
Proof.
  intros Hi He. split.
  - intros w. rewrite filterBatch_run. simpl. split; [reflexivity|]. split.
    + now apply checked_rejected with (i := i) (e := e).
    + intros j Hj. now apply checked_frame.
  - intros ids w Hnd Hb. rewrite batchCheckStreamStatuses_run. simpl.
    apply concat_split_NoDup in Hnd. split; [reflexivity|]. split.
    + intros j Hj. rewrite (@forEach_checked_own remote _ w batch j Hnd Hb Hj).
      now apply checked_rejected with (i := i) (e := e).
    + intros b Hb' Hall j c Hj Hc.
      rewrite (@forEach_checked_own remote _ w b j Hnd Hb' Hj).
      now apply checked_fulfilled.
Qed.


End BatchClaims.

(** ** Whole runs *)

Module RunFacts.
Import JsObject JsObjectFacts PromiseFacts Batcher BatcherFacts Script.
Import ScriptFacts.

Lemma then_triple {A B : Type} (P Q : World -> Prop) (p : Promise A)
    (f : A -> Promise B) :
  triple P p Q -> (forall a, triple Q (f a) Q) -> triple P (then_ p f) Q.
Proof.
  intros Hp Hf w Hw. unfold then_. specialize (Hp w Hw).
  destruct (p w) as [[a|e] w1]; simpl in *; [now apply Hf|assumption].
Qed.

Lemma catch_triple {A : Type} (P Q : World -> Prop) (p : Promise A)
    (h : JsError -> Promise A) :
  triple P p Q -> (forall e, triple Q (h e) Q) -> triple P (catch_ p h) Q.
Proof.
  intros Hp Hh w Hw. unfold catch_. specialize (Hp w Hw).
  destruct (p w) as [[a|e] w1]; simpl in *; [assumption|now apply Hh].
Qed.

Section Stages.

Variable remote : Remote.

Lemma storeStreamStatus_ledger w :
  ledger (snd (storeStreamStatus remote w)) = ledger w
  /\ issued (snd (storeStreamStatus remote w)) = issued w.
Proof.
  unfold storeStreamStatus. destruct (writeFile_error remote); now simpl.
Qed.

Lemma report_ledger w :
  ledger (snd (report w)) = ledger w /\ issued (snd (report w)) = issued w.
Proof.
  unfold report, effect. simpl.
  destruct (fold_left _ _ _) as [[d i] u]. now simpl.
Qed.

Lemma status_is_true o v k :
  status_is o v k = true <-> get o k = Some v.
Proof.
  unfold status_is. destruct (get o k) as [s|]; [|split; discriminate].
  rewrite String.eqb_eq. split; congruence.
Qed.

Lemma in_streamIdsToBeChecked o k :
  In k (streamIdsToBeChecked o) <-> get o k = Some "unknown".
Proof.
  unfold streamIdsToBeChecked. rewrite filter_In, status_is_true, in_keys_iff.
  split; [tauto|]. intros H. split; [congruence|assumption].
Qed.

Lemma in_streamIdsToBeDeleted o k :
  In k (streamIdsToBeDeleted o) <-> get o k = Some "inactive".
Proof.
  unfold streamIdsToBeDeleted. rewrite filter_In, status_is_true, in_keys_iff.
  split; [tauto|]. intros H. split; [congruence|assumption].
Qed.

(** Re-classification leaves alone what is not "unknown". *)
Lemma checkUnknown_keeps w j :
  get (ledger w) j <> Some "unknown" ->
  get (ledger (snd (checkUnknown remote w))) j = get (ledger w) j.
Proof.
  intros H. unfold checkUnknown. apply batchCheckStreamStatuses_frame.
  now rewrite in_streamIdsToBeChecked.
Qed.

(** Deletion leaves alone what is not "inactive". *)
Lemma deleteStreams_keeps argv w j :
  get (ledger w) j <> Some "inactive" ->
  get (ledger (snd (deleteStreams remote argv w))) j = get (ledger w) j.
Proof.
  intros H. unfold deleteStreams. destruct (dryRun argv); [reflexivity|].
  apply batchDeleteStreams_frame. now rewrite in_streamIdsToBeDeleted.
Qed.

Lemma getStreamStatus_loads w text o :
  file w = Some text -> JSON.parse text = Some o ->
  getStreamStatus w = (Fulfilled tt, with_ledger o w).
Proof. intros Hf Hp. unfold getStreamStatus. now rewrite Hf, Hp. Qed.

(** An entry of the checkpoint that is neither "unknown" nor "inactive"
    is still there, unchanged, when the resumed run ends. *)
Lemma resume_keeps argv j s :
  s <> "unknown" -> s <> "inactive" ->
  triple
    (fun w => exists text o,
       file w = Some text /\ JSON.parse text = Some o /\ get o j = Some s)
    (resume remote argv)
    (fun w => get (ledger w) j = Some s).
Proof.
  intros Hu Hi.
  assert (Hstore : forall a : unit,
            triple (fun w => get (ledger w) j = Some s)
              (storeStreamStatus remote) (fun w => get (ledger w) j = Some s)).
  { intros _ w Hw. cbv beta.
    now rewrite (proj1 (storeStreamStatus_ledger w)). }
  unfold resume.
  apply catch_triple; [|intros e w Hw; exact Hw].
  apply then_triple;
    [apply then_triple;
       [apply then_triple; [apply then_triple; [apply then_triple|]|]|]|];
    try assumption.
  - intros w [text [o [Hf [Hp Hg]]]]. cbv beta.
    now rewrite (getStreamStatus_loads _ Hf Hp).
  - intros _ w Hw. cbv beta. rewrite checkUnknown_keeps; congruence.
  - intros _ w Hw. cbv beta. rewrite deleteStreams_keeps; congruence.
  - intros _ w Hw. cbv beta. now rewrite (proj1 (report_ledger w)).
Qed.

(** The three groups of the report are the keys of each status. *)
Lemma report_run w :
  report w =
  (Fulfilled tt,
   print (InfoReport
            (filter (status_is (ledger w) "unknown") (keys (ledger w)))
            (filter (status_is (ledger w) "inactive") (keys (ledger w)))
            (filter (status_is (ledger w) "deleted") (keys (ledger w)))) w).
Proof.
  unfold report, effect. f_equal.
  set (o := ledger w).
  match goal with
  | |- context [fold_left ?f _ _] => set (sort := f)
  end.
  assert (H : forall ks d i u,
            fold_left sort ks (d, i, u) =
            (d ++ filter (status_is o "deleted") ks,
             i ++ filter (status_is o "inactive") ks,
             u ++ filter (status_is o "unknown") ks)).
  { induction ks as [|k ks IH]; intros d i u; simpl.
    - now rewrite !app_nil_r.
    - destruct (get o k) as [s|] eqn:Hk.
      + assert (Hst : forall v, status_is o v k = String.eqb s v)
          by (intros v; unfold status_is; now rewrite Hk).
        rewrite !Hst.
        destruct (String.eqb_spec s "unknown") as [->|Hu];
          [rewrite IH; simpl; now rewrite <- app_assoc|].
        destruct (String.eqb_spec s "inactive") as [->|Hi];
          [rewrite IH; simpl; now rewrite <- app_assoc|].
        destruct (String.eqb_spec s "deleted") as [->|Hd];
          [rewrite IH; simpl; now rewrite <- app_assoc|].
        apply IH.
      + assert (Hst : forall v, status_is o v k = false)
          by (intros v; unfold status_is; now rewrite Hk).
        rewrite !Hst. apply IH. }
  rewrite H. reflexivity.
Qed.

(** The queries of a re-classification: the whole batches of the
    "unknown" ids. *)
Lemma checkUnknown_issued w :
  issued (snd (checkUnknown remote w)) =
  issued w
    ++ map GetTimeseries
         (concat (split (streamIdsToBeChecked (ledger w)) None None)).
Proof.
  unfold checkUnknown. rewrite batchCheckStreamStatuses_run. simpl.
  apply forEach_checked_issued.
Qed.




(** *** The console *)

Lemma forEach_console_only {A : Type} (g : A -> World -> World) xs :
  (forall x w, console (g x w) = console w) ->
  forall w, console (forEach xs g w) = console w.
Proof.
  intros Hg. induction xs as [|x xs IH]; intros w; simpl; [reflexivity|].
  now rewrite IH, Hg.
Qed.

Lemma checked_console batch w l :
  In l (console (checked remote batch w)) ->
  In l (console w) \/ exists e, l = ErrorChecking e.
Proof.
  unfold checked. destruct (settle_all _) as [res|e].
  - rewrite !forEach_console_only by reflexivity. tauto.
  - rewrite forEach_console_only by reflexivity. simpl.
    rewrite forEach_console_only by reflexivity.
    rewrite in_app_iff. simpl. intros [H|[<-|[]]]; eauto.
Qed.

Lemma deleted_console batch w l :
  In l (console (deleted remote batch w)) ->
  In l (console w) \/ exists e, l = ErrorDeleting e.
Proof.
  assert (H : console (forEach batch (deleted_one remote) w) = console w).
  { apply forEach_console_only. intros x w0. unfold deleted_one.
    now destruct (confirmed remote x). }
  unfold deleted. destruct (settle_all _) as [res|e]; simpl; rewrite H.
  - tauto.
  - rewrite in_app_iff. simpl. intros [H0|[<-|[]]]; eauto.
Qed.

Lemma forEach_no_new_report {A : Type} (g : A -> World -> World) xs :
  (forall x w, no_new_report w (g x w)) ->
  forall w, no_new_report w (forEach xs g w).
Proof.
  intros Hg. induction xs as [|x xs IH]; intros w; simpl.
  - intros u i d H. exact H.
  - intros u i d H. apply (Hg x w), (IH (g x w)), H.
Qed.

Lemma checkUnknown_no_new_report w :
  no_new_report w (snd (checkUnknown remote w)).
Proof.
  unfold checkUnknown. rewrite batchCheckStreamStatuses_run. simpl.
  apply forEach_no_new_report. intros b w0 u i d H.
  apply checked_console in H. destruct H as [H|[e H]];
    [assumption|discriminate].
Qed.

Lemma deleteStreams_no_new_report argv w :
  no_new_report w (snd (deleteStreams remote argv w)).
Proof.
  unfold deleteStreams. destruct (dryRun argv).
  - intros u i d H. simpl in H. apply in_app_iff in H.
    destruct H as [H|[H|[]]]; [assumption|discriminate].
  - rewrite batchDeleteStreams_run. simpl.
    apply forEach_no_new_report. intros b w0 u i d H.
    apply deleted_console in H. destruct H as [H|[e H]];
      [assumption|discriminate].
Qed.

Lemma storeStreamStatus_console w :
  console (snd (storeStreamStatus remote w)) = console w.
Proof.
  unfold storeStreamStatus. destruct (writeFile_error remote); now simpl.
Qed.

(** A resumed run started from a checkpoint holding [j] with a status
    that is none of the three keeps the entry and never prints [j] in a
    report. *)
Lemma resume_omits argv j s w0 :
  s <> "unknown" -> s <> "inactive" -> s <> "deleted" ->
  triple
    (fun w => w = w0 /\ exists text o,
       file w = Some text /\ JSON.parse text = Some o /\ get o j = Some s)
    (resume remote argv)
    (fun w => get (ledger w) j = Some s /\
              forall u i d,
                In (InfoReport u i d) (console w) ->
                In (InfoReport u i d) (console w0) \/
                (~ In j u /\ ~ In j i /\ ~ In j d)).
Proof.
  intros Hu Hi Hd.
  match goal with |- triple _ _ ?post => set (Q := post) end.
  assert (Hstore : forall a : unit, triple Q (storeStreamStatus remote) Q).
  { intros _ w [Hg Hr]. unfold Q.
    rewrite (proj1 (storeStreamStatus_ledger w)).
    now rewrite storeStreamStatus_console. }
  unfold resume. apply catch_triple.
  - apply then_triple;
      [apply then_triple;
         [apply then_triple; [apply then_triple; [apply then_triple|]|]|]|];
      try assumption.
    + intros w [-> [text [o [Hf [Hp Hg]]]]]. unfold Q.
      rewrite (getStreamStatus_loads _ Hf Hp). simpl. split; [assumption|].
      intros u i d H. now left.
    + intros _ w [Hg Hr]. unfold Q. split.
      * rewrite checkUnknown_keeps; congruence.
      * intros u i d H. apply Hr. now apply checkUnknown_no_new_report.
    + intros _ w [Hg Hr]. unfold Q. split.
      * rewrite deleteStreams_keeps; congruence.
      * intros u i d H. apply Hr.
        now apply (@deleteStreams_no_new_report argv).
    + intros _ w [Hg Hr]. unfold Q. rewrite report_run. simpl.
      split; [assumption|]. intros u i d H. apply in_app_iff in H.
      destruct H as [H|[H|[]]]; [now apply Hr|]. right.
      injection H as <- <- <-.
      repeat split; rewrite filter_In, status_is_true; intros [_ H];
        congruence.
  - intros e w [Hg Hr]. unfold Q. simpl. split; [assumption|].
    intros u i d H. apply in_app_iff in H.
    destruct H as [H|[H|[]]]; [now apply Hr|discriminate].
Qed.

End Stages.

(** Passes keep every entry that is neither "unknown" nor "inactive". *)
Lemma run_passes_keeps passes w j s :
  s <> "unknown" -> s <> "inactive" ->
  get (ledger w) j = Some s ->
  get (ledger (run_passes passes w)) j = Some s.
Proof.
  intros Hu Hi. unfold run_passes. revert w.
  induction passes as [|p ps IH]; intros w Hw; simpl; [assumption|].
  apply IH. destruct p as [r|r argv]; simpl.
  - rewrite checkUnknown_keeps; congruence.
  - rewrite deleteStreams_keeps; congruence.
Qed.

End RunFacts.

(** ** Resumed runs, dry runs and statuses *)

Section RunClaims.
Import JsObject JsObjectFacts PromiseFacts Batcher BatcherFacts Script.
Import ScriptFacts RunFacts.

Lemma in_issued_timeseries l ids x :
  In (DeleteSearch x) (l ++ map GetTimeseries ids) -> In (DeleteSearch x) l.
Proof.
  rewrite in_app_iff, in_map_iff. intros [H|[i [H _]]]; [assumption|].
  discriminate.
Qed.

(** The stages after classification, in a dry run, leave the ledger and
    the list of requests as classification left them. *)
Lemma dry_run_tail (remote : Remote) (argv : Argv) (classify : Promise unit)
    (w : World) :
  dryRun argv = true ->
  let w' :=
    snd (catch_
           (then_ (then_ (then_ (then_
              classify
              (fun _ => storeStreamStatus remote))
              (fun _ => deleteStreams remote argv))
              (fun _ => storeStreamStatus remote))
              (fun _ => report))
           (fun err => effect (print (ErrorUncaught err))) w) in
  ledger w' = ledger (snd (classify w))
  /\ issued w' = issued (snd (classify w)).
Proof.
  intros Hdry.
  set (Q := fun w' => ledger w' = ledger (snd (classify w))
                      /\ issued w' = issued (snd (classify w))).
  assert (Hstore : forall a : unit, triple Q (storeStreamStatus remote) Q).
  { intros _ w0 [H1 H2]. unfold Q.
    destruct (storeStreamStatus_ledger remote w0) as [-> ->]. now split. }
  apply (@catch_triple _ (fun w0 => w0 = w) Q); [| |reflexivity].
  - apply then_triple;
      [apply then_triple; [apply then_triple; [apply then_triple|]|]|];
      try assumption.
    + intros w0 ->. now split.
    + intros _ w0 H. unfold deleteStreams. rewrite Hdry. exact H.
    + intros _ w0 [H1 H2]. unfold Q.
      destruct (report_ledger w0) as [-> ->]. now split.
  - intros e w0 H. exact H.
Qed.

Variable remote : Remote.

(** C6.  An entry that reads "deleted" is not among the ids a resumed
    run re-classifies (those are exactly the ids reading "unknown") nor
    among the ids the deletion phase takes (exactly the ids reading
    "inactive"); it reads "deleted" after any sequence of later
    re-classification and deletion passes, and a checkpoint entry
    "deleted" still reads "deleted" when a resumed run ends. *)
Theorem deleted_is_never_overwritten (w : World) (j : string) :
  get (ledger w) j = Some "deleted" ->
  (forall k, In k (streamIdsToBeChecked (ledger w)) <->
             get (ledger w) k = Some "unknown") /\
  (forall k, In k (streamIdsToBeDeleted (ledger w)) <->
             get (ledger w) k = Some "inactive") /\
  ~ In j (streamIdsToBeChecked (ledger w)) /\
  ~ In j (streamIdsToBeDeleted (ledger w)) /\
  (forall passes, get (ledger (run_passes passes w)) j = Some "deleted") /\
  (forall argv w0 text,
     file w0 = Some text -> JSON.parse text = Some (ledger w) ->
     get (ledger (snd (resume remote argv w0))) j = Some "deleted").
Proof.
  intros Hd. repeat split.
  - now apply in_streamIdsToBeChecked.
  - now apply in_streamIdsToBeChecked.
  - now apply in_streamIdsToBeDeleted.
  - now apply in_streamIdsToBeDeleted.
  - rewrite in_streamIdsToBeChecked. congruence.
  - rewrite in_streamIdsToBeDeleted. congruence.
  - intros passes. apply run_passes_keeps; [discriminate..|assumption].
  - intros argv w0 text Hf Hp.
    apply (@resume_keeps remote argv j "deleted"); [discriminate..|].
    eauto.
Qed.

(** C7.  In a dry run the deletion phase is fulfilled at once and leaves
    the ledger, the checkpoint file and the list of requests as they
    were: no delete request is sent.  When a dry run ends, resumed or
    fresh, its ledger is the one classification produced and every
    delete request on record was there before the run. *)
Theorem dry_run_skips_deletion (argv : Argv) :
  dryRun argv = true ->
  (forall w,
     let w' := snd (deleteStreams remote argv w) in
     fst (deleteStreams remote argv w) = Fulfilled tt /\
     ledger w' = ledger w /\ file w' = file w /\ issued w' = issued w) /\
  (forall w,
     let classified :=
       snd (then_ getStreamStatus (fun _ => checkUnknown remote) w) in
     let w' := snd (resume remote argv w) in
     ledger w' = ledger classified /\
     forall x,
       In (DeleteSearch x) (issued w') -> In (DeleteSearch x) (issued w)) /\
  (forall youngest oldest w,
     let classified :=
       snd (then_ (listStreamsRequest remote argv youngest oldest)
              (fun ids w0 =>
                 batchCheckStreamStatuses remote ids
                   (with_ledger JsObject.empty w0)) w) in
     let w' := snd (start remote argv youngest oldest w) in
     ledger w' = ledger classified /\
     forall x,
       In (DeleteSearch x) (issued w') -> In (DeleteSearch x) (issued w)).
Proof.
  intros Hdry. split; [|split].
  - intros w. unfold deleteStreams. rewrite Hdry. simpl. tauto.
  - intros w.
    destruct (@dry_run_tail remote argv
                (then_ getStreamStatus (fun _ => checkUnknown remote)) w Hdry)
      as [Hl Hi].
    split; [exact Hl|]. intros x. unfold resume. rewrite Hi.
    unfold then_, getStreamStatus.
    destruct (file w) as [text|]; [|now simpl].
    destruct (JSON.parse text) as [o|]; [|now simpl].
    rewrite checkUnknown_issued. simpl. apply in_issued_timeseries.
  - intros youngest oldest w.
    destruct (@dry_run_tail remote argv
                (then_ (listStreamsRequest remote argv youngest oldest)
                   (fun ids w0 =>
                      batchCheckStreamStatuses remote ids
                        (with_ledger JsObject.empty w0))) w Hdry)
      as [Hl Hi].
    split; [exact Hl|]. intros x. unfold start. rewrite Hi.
    unfold then_ at 1, listStreamsRequest, then_ at 1.
    assert (Hs : forall l, In (DeleteSearch x) (l ++ [GetSearches]) ->
                           In (DeleteSearch x) l).
    { intros l H. apply in_app_iff in H. destruct H as [H|[H|[]]];
        [assumption|discriminate]. }
    destruct (searches remote) as [data|e]; simpl; [|apply Hs].
    rewrite batchCheckStreamStatuses_run. simpl.
    rewrite forEach_checked_issued. simpl.
    intros H. apply in_issued_timeseries in H. now apply Hs.
Qed.

(** C10.  An entry whose status is none of "unknown", "inactive" and
    "deleted" is not taken for re-classification nor for deletion and
    reads the same after any sequence of passes.  A resumed run whose
    checkpoint holds it ends with the entry unchanged and prints no
    report with the id in any group; the report of any ledger holding
    the entry has the id in none of its three groups. *)
Theorem unrecognised_status_kept_unreported (w : World) (j s : string) :
  get (ledger w) j = Some s ->
  s <> "unknown" -> s <> "inactive" -> s <> "deleted" ->
  ~ In j (streamIdsToBeChecked (ledger w)) /\
  ~ In j (streamIdsToBeDeleted (ledger w)) /\
  (forall passes, get (ledger (run_passes passes w)) j = Some s) /\
  (forall argv w0 text,
     file w0 = Some text -> JSON.parse text = Some (ledger w) ->
     let w' := snd (resume remote argv w0) in
     get (ledger w') j = Some s /\
     forall u i d,
       In (InfoReport u i d) (console w') ->
       In (InfoReport u i d) (console w0) \/
       (~ In j u /\ ~ In j i /\ ~ In j d)) /\
  (exists unknown inactive deleted,
     snd (report w) = print (InfoReport unknown inactive deleted) w /\
     ~ In j unknown /\ ~ In j inactive /\ ~ In j deleted).
Proof.
  intros Hg Hu Hi Hd. split; [|split; [|split; [|split]]].
  - rewrite in_streamIdsToBeChecked. congruence.
  - rewrite in_streamIdsToBeDeleted. congruence.
  - intros passes. now apply run_passes_keeps.
  - intros argv w0 text Hf Hp.
    apply (@resume_omits remote argv j s w0); [assumption..|]. eauto 6.
  - rewrite report_run. simpl. do 3 eexists. split; [reflexivity|].
    repeat split; rewrite filter_In, status_is_true; intros [_ H];
      congruence.
Qed.

End RunClaims.

(** ** The checkpoint text *)

Module JSONFacts.
Import JsObject JsObjectFacts JSON.

Lemma run_app st s1 s2 :
  run st (s1 ++ s2)%string =
  match run st s1 with
  | Some st' => run st' s2
  | None => None
  end.
Proof.
  revert st. induction s1 as [|c s1 IH]; intros st; simpl; [reflexivity|].
  destruct (step st c); [apply IH|reflexivity].
Qed.

(** Reading back one quoted character. *)
Lemma run_quote_char c o sl buf rest :
  run (Str o sl buf) (quote_char c ++ rest)%string =
  run (Str o sl (push buf c)) rest.
Proof.
  destruct c as [[] [] [] [] [] [] [] []]; reflexivity.
Qed.

Lemma push_app buf c s :
  (push buf c ++ s)%string = (buf ++ String c s)%string.
Proof.
  unfold push. induction buf as [|b buf IH]; simpl; [reflexivity|].
  now rewrite IH.
Qed.

Lemma string_app_assoc (a b c : string) :
  ((a ++ b) ++ c)%string = (a ++ (b ++ c))%string.
Proof. induction a as [|x a IH]; simpl; [reflexivity|now rewrite IH]. Qed.

Lemma string_app_nil_r (a : string) : (a ++ "")%string = a.
Proof. induction a as [|x a IH]; simpl; [reflexivity|now rewrite IH]. Qed.

Lemma run_quote_body s o sl buf rest :
  run (Str o sl buf) (quote_body s ++ rest)%string =
  run (Str o sl (buf ++ s)%string) rest.
Proof.
  revert buf. induction s as [|c s IH]; intros buf; simpl.
  - now rewrite string_app_nil_r.
  - now rewrite string_app_assoc, run_quote_char, IH, push_app.
Qed.

(** Reading back a quoted string, from the opening quote on. *)
Lemma run_quote_in s o sl rest :
  run (Str o sl "") (quote_body s ++ String dquote rest)%string =
  run (close o sl s) rest.
Proof. rewrite run_quote_body. reflexivity. Qed.

Lemma quote_unfold s rest :
  (quote s ++ rest)%string =
  String dquote (quote_body s ++ String dquote rest)%string.
Proof. unfold quote. simpl. now rewrite string_app_assoc. Qed.

(** Reading back one member, at the start of the object or after a
    comma. *)
Lemma run_member st o kv rest :
  st = Open o \/ st = Comma o ->
  run st (member kv ++ rest)%string =
  run (Next (set o (fst kv) (snd kv))) rest.
Proof.
  intros Hst. unfold member.
  rewrite !string_app_assoc, quote_unfold.
  assert (H1 : run st (String dquote
                 (quote_body (fst kv)
                  ++ String dquote (":" ++ quote (snd kv) ++ rest)))%string
               = run (Str o KeySlot "")
                   (quote_body (fst kv)
                    ++ String dquote (":" ++ quote (snd kv) ++ rest))%string)
    by (destruct Hst; subst st; reflexivity).
  rewrite H1, run_quote_in. simpl close.
  change (":" ++ quote (snd kv) ++ rest)%string
    with (String ":" (quote (snd kv) ++ rest))%string.
  rewrite quote_unfold.
  change (run (Colon o (fst kv))
            (String ":" (String dquote
               (quote_body (snd kv) ++ String dquote rest)%string)))
    with (run (Str o (ValueSlot (fst kv)) "")
            (quote_body (snd kv) ++ String dquote rest)%string).
  now rewrite run_quote_in.
Qed.

Lemma run_members o st acc kv rest :
  st = Open acc \/ st = Comma acc ->
  run st (members (kv :: o) ++ rest)%string =
  run (Next (build acc (kv :: o))) rest.
Proof.
  revert st acc kv. induction o as [|kv' o IH]; intros st acc kv Hst.
  - simpl members. now rewrite (@run_member st acc kv rest Hst).
  - change (members (kv :: kv' :: o))
      with (member kv ++ "," ++ members (kv' :: o))%string.
    rewrite !string_app_assoc, (@run_member st acc kv _ Hst).
    change ("," ++ members (kv' :: o) ++ rest)%string
      with (String "," (members (kv' :: o) ++ rest))%string.
    change (run (Next (set acc (fst kv) (snd kv)))
              (String "," (members (kv' :: o) ++ rest)%string))
      with (run (Comma (set acc (fst kv) (snd kv)))
              (members (kv' :: o) ++ rest)%string).
    rewrite (IH _ (set acc (fst kv) (snd kv))) by (right; reflexivity).
    reflexivity.
Qed.

(** Parsing the text of an object defines its members in order. *)
Lemma parse_stringify o :
  parse (stringify o) = Some (build empty o).
Proof.
  unfold parse, stringify.
  change (run Start ("{" ++ members o ++ "}")%string)
    with (run (Open empty) (members o ++ "}")%string).
  destruct o as [|kv o]; [reflexivity|].
  rewrite (@run_members o _ empty) by (left; reflexivity). reflexivity.
Qed.

(** *** A property list is rebuilt as it is *)

Lemma ordered_prefix prev named ks k :
  ordered prev named (ks ++ [k]) = true -> ordered prev named ks = true.
Proof.
  revert prev named. induction ks as [|k0 ks IH]; intros prev named; simpl;
    [reflexivity|].
  destruct (array_index k0) as [n0|]; [|apply IH].
  intros H. apply andb_true_iff in H. destruct H as [H1 H2].
  now rewrite H1, (IH _ _ H2).
Qed.

Lemma ordered_named_last prev ks k :
  ordered prev true (ks ++ [k]) = true -> array_index k = None.
Proof.
  revert prev. induction ks as [|k0 ks IH]; intros prev; simpl.
  - destruct (array_index k); [discriminate|reflexivity].
  - destruct (array_index k0); [discriminate|apply IH].
Qed.

Lemma ordered_last prev ks k n :
  ordered prev false (ks ++ [k]) = true -> array_index k = Some n ->
  match prev with Some p => (p < n)%N | None => True end /\
  Forall (fun k' => exists n', array_index k' = Some n' /\ (n' < n)%N) ks.
Proof.
  revert prev. induction ks as [|k0 ks IH]; intros prev H Hk; simpl in H.
  - rewrite Hk in H. split; [|constructor].
    destruct prev as [p|]; [|exact I].
    simpl in H. rewrite andb_true_r in H. now apply N.ltb_lt.
  - destruct (array_index k0) as [n0|] eqn:E0.
    + apply andb_true_iff in H. destruct H as [H1 H2]. simpl in H1.
      destruct (IH _ H2 Hk) as [Hn0 Hks]. split.
      * destruct prev as [p|]; [|exact I]. apply N.ltb_lt in H1. lia.
      * constructor; [eauto|assumption].
    + apply ordered_named_last in H. congruence.
Qed.

Lemma insert_index_last n k v o :
  Forall (fun k' => exists n', array_index k' = Some n' /\ (n' < n)%N)
    (keys o) ->
  insert_index n k v o = o ++ [(k, v)].
Proof.
  induction o as [|[k' v'] o IH]; simpl; intros H; [reflexivity|].
  inversion H as [|? ? [n' [E Hlt]] Ho]; subst. rewrite E.
  apply N.ltb_lt in Hlt. rewrite Hlt. now rewrite IH.
Qed.

Lemma keys_app o o' : keys (o ++ o') = keys o ++ keys o'.
Proof. apply map_app. Qed.

Lemma wf_prefix o x : wf (o ++ [x]) -> wf o.
Proof.
  unfold wf. rewrite keys_app. intros [Hnd Ho]. split.
  - eapply NoDup_app_remove_r; eauto.
  - eapply ordered_prefix; eauto.
Qed.

(** Defining the last member of a property list after the others puts it
    last. *)
Lemma set_last o k v : wf (o ++ [(k, v)]) -> set o k v = o ++ [(k, v)].
Proof.
  unfold wf. rewrite keys_app. simpl. intros [Hnd Ho].
  assert (Hk : get o k = None).
  { destruct (get o k) eqn:E; [|reflexivity]. exfalso.
    apply NoDup_remove_2 in Hnd. apply Hnd. rewrite app_nil_r.
    apply in_keys_iff. congruence. }
  unfold set. apply has_false_iff in Hk. rewrite Hk.
  destruct (array_index k) as [n|] eqn:E; [|reflexivity].
  apply insert_index_last. eapply ordered_last; eauto.
Qed.

Lemma build_wf o : wf o -> build empty o = o.
Proof.
  induction o as [|x o IH] using rev_ind; intros H; [reflexivity|].
  unfold build in *. rewrite fold_left_app. simpl.
  rewrite (IH (wf_prefix _ _ H)). destruct x as [k v]. now apply set_last.
Qed.

(** [load(save(ledger)) == ledger] *)
Lemma parse_stringify_wf o : wf o -> parse (stringify o) = Some o.
Proof. intros H. now rewrite parse_stringify, build_wf. Qed.

End JSONFacts.

(** ** Property lists stay property lists *)

Module WfFacts.
Import JsObject JsObjectFacts.

Lemma digit_spec c d :
  digit c = Some d -> (d < 10)%N /\ N_of_ascii c = (48 + d)%N.
Proof.
  unfold digit. destruct (_ && _) eqn:E; [|discriminate].
  apply andb_true_iff in E. destruct E as [E1 E2].
  apply N.leb_le in E1, E2. intros H. injection H as <-. lia.
Qed.

Lemma digit_inj c c' d : digit c = Some d -> digit c' = Some d -> c = c'.
Proof.
  intros H H'. apply digit_spec in H, H'.
  rewrite <- (ascii_N_embedding c), <- (ascii_N_embedding c').
  f_equal. lia.
Qed.

Lemma digits_bound s : forall acc n,
  digits s acc = Some n ->
  (acc * 10 ^ N.of_nat (String.length s) <= n
   < (acc + 1) * 10 ^ N.of_nat (String.length s))%N.
Proof.
  induction s as [|c s IH]; intros acc n H; cbn [digits] in H.
  - injection H as <-. simpl. lia.
  - destruct (digit c) as [d|] eqn:Ed; [|discriminate].
    apply digit_spec in Ed. destruct Ed as [Hd _]. specialize (IH _ _ H).
    cbn [String.length]. rewrite Nat2N.inj_succ, N.pow_succ_r'.
    set (P := (10 ^ N.of_nat (String.length s))%N) in *.
    assert (H1 : ((10 * acc + d) * P = acc * (10 * P) + d * P)%N) by ring.
    assert (H2 : ((10 * acc + d + 1) * P = acc * (10 * P) + (d + 1) * P)%N)
      by ring.
    assert (H3 : ((acc + 1) * (10 * P) = acc * (10 * P) + 10 * P)%N) by ring.
    assert (H4 : ((d + 1) * P <= 10 * P)%N)
      by (apply N.mul_le_mono_r; lia).
    lia.
Qed.

Lemma digits_inj s : forall s' acc n,
  String.length s = String.length s' ->
  digits s acc = Some n -> digits s' acc = Some n -> s = s'.
Proof.
  induction s as [|c s IH]; intros [|c' s'] acc n Hlen H H';
    simpl in Hlen; try discriminate; [reflexivity|].
  injection Hlen as Hlen. cbn [digits] in H, H'.
  destruct (digit c) as [d|] eqn:Ed; [|discriminate].
  destruct (digit c') as [d'|] eqn:Ed'; [|discriminate].
  pose proof (@digits_bound _ _ _ H) as B.
  pose proof (@digits_bound _ _ _ H') as B'.
  rewrite <- Hlen in B'.
  set (P := (10 ^ N.of_nat (String.length s))%N) in *.
  assert (0 < P)%N by (apply N.neq_0_lt_0, N.pow_nonzero; lia).
  assert (d = d') by nia. subst d'.
  rewrite (@digit_inj _ _ _ Ed Ed'). f_equal. eapply IH; eauto.
Qed.

(** The value of a numeral that does not start with a zero tells its
    length. *)
Lemma digits_canonical c s n :
  Ascii.eqb c "0" = false -> digits (String c s) 0 = Some n ->
  (10 ^ N.of_nat (String.length s) <= n
   < 10 ^ N.of_nat (S (String.length s)))%N.
Proof.
  intros Hc H. cbn [digits] in H.
  destruct (digit c) as [d|] eqn:Ed; [|discriminate].
  pose proof (@digits_bound _ _ _ H) as B.
  apply digit_spec in Ed. destruct Ed as [Hd Hn].
  assert (d <> 0)%N.
  { intros ->. apply Ascii.eqb_neq in Hc. apply Hc.
    rewrite <- (ascii_N_embedding c), Hn. reflexivity. }
  rewrite Nat2N.inj_succ, N.pow_succ_r'.
  set (P := (10 ^ N.of_nat (String.length s))%N) in *. nia.
Qed.

Lemma array_index_cases k n :
  array_index k = Some n ->
  (k = "0" /\ n = 0%N) \/
  (exists c s, k = String c s /\ Ascii.eqb c "0" = false
               /\ digits k 0 = Some n).
Proof.
  destruct k as [|c s]; unfold array_index; [discriminate|].
  destruct (Ascii.eqb c "0") eqn:Ec.
  - apply Ascii.eqb_eq in Ec. subst c.
    destruct s; [|discriminate]. intros H. injection H as <-. now left.
  - destruct (digits (String c s) 0) as [m|] eqn:Ed; [|discriminate].
    destruct (m <? 4294967295)%N; [|discriminate].
    intros H. injection H as <-. right. eauto.
Qed.

(** An array index names one property. *)
Lemma array_index_inj k k' n :
  array_index k = Some n -> array_index k' = Some n -> k = k'.
Proof.
  intros H H'. apply array_index_cases in H, H'.
  destruct H as [[-> ->]|[c [s [-> [Hc Hd]]]]];
    destruct H' as [[-> Hn]|[c' [s' [-> [Hc' Hd']]]]].
  - reflexivity.
  - pose proof (@digits_canonical _ _ _ Hc' Hd') as B.
    assert (0 < 10 ^ N.of_nat (String.length s'))%N
      by (apply N.neq_0_lt_0, N.pow_nonzero; lia).
    lia.
  - subst n. pose proof (@digits_canonical _ _ _ Hc Hd) as B.
    assert (0 < 10 ^ N.of_nat (String.length s))%N
      by (apply N.neq_0_lt_0, N.pow_nonzero; lia).
    lia.
  - pose proof (@digits_canonical _ _ _ Hc Hd) as B.
    pose proof (@digits_canonical _ _ _ Hc' Hd') as B'.
    assert (Hlen : String.length s = String.length s').
    { destruct (Nat.lt_trichotomy (String.length s) (String.length s'))
        as [L|[L|L]]; [exfalso|assumption|exfalso].
      - assert (10 ^ N.of_nat (S (String.length s))
                <= 10 ^ N.of_nat (String.length s'))%N
          by (apply N.pow_le_mono_r; lia).
        lia.
      - assert (10 ^ N.of_nat (S (String.length s'))
                <= 10 ^ N.of_nat (String.length s))%N
          by (apply N.pow_le_mono_r; lia).
        lia. }
    eapply digits_inj; eauto. simpl. now rewrite Hlen.
Qed.

Lemma keys_update o k v : keys (update o k v) = keys o.
Proof.
  unfold keys. induction o as [|[k' v'] o IH]; simpl; [reflexivity|].
  destruct (String.eqb k' k); simpl; [reflexivity|now rewrite IH].
Qed.

Lemma in_keys_insert_index n k v o x :
  In x (keys (insert_index n k v o)) <-> x = k \/ In x (keys o).
Proof.
  unfold keys. induction o as [|[k' v'] o IH]; simpl.
  - intuition.
  - destruct (array_index k') as [n'|]; [destruct (n' <? n)%N|]; simpl;
      rewrite ?IH; intuition.
Qed.

Lemma NoDup_insert_index n k v o :
  ~ In k (keys o) -> NoDup (keys o) -> NoDup (keys (insert_index n k v o)).
Proof.
  induction o as [|[k' v'] o IH]; simpl; intros Hk Hnd.
  - constructor; [tauto|constructor].
  - inversion Hnd as [|? ? Hk' Hnd']; subst.
    assert (Hall : NoDup (k :: k' :: keys o))
      by (constructor; [simpl; tauto|assumption]).
    destruct (array_index k') as [n'|]; [destruct (n' <? n)%N|];
      try exact Hall.
    simpl. constructor.
    + change (map fst (insert_index n k v o))
        with (keys (insert_index n k v o)).
      rewrite in_keys_insert_index. intros [->|H]; tauto.
    + apply IH; tauto.
Qed.

Lemma ordered_named_prev p p' ks : ordered p true ks = ordered p' true ks.
Proof.
  revert p p'. induction ks as [|k ks IH]; intros p p'; simpl; [reflexivity|].
  destruct (array_index k); [reflexivity|apply IH].
Qed.

Lemma ordered_named_false prev ks :
  ordered prev true ks = true -> ordered prev false ks = true.
Proof.
  destruct ks as [|k ks]; simpl; [reflexivity|].
  destruct (array_index k); [discriminate|auto].
Qed.

Lemma ordered_lower p prev ks :
  ordered (Some p) false ks = true ->
  match prev with Some q => (q <= p)%N | None => True end ->
  ordered prev false ks = true.
Proof.
  destruct ks as [|k ks]; simpl; [reflexivity|].
  destruct (array_index k) as [n|]; [|intros H _;
    now rewrite (ordered_named_prev prev (Some p))].
  intros H Hq. apply andb_true_iff in H. destruct H as [H1 H2].
  rewrite H2, andb_true_r. destruct prev as [q|]; [|reflexivity].
  simpl in *. apply N.ltb_lt in H1. apply N.ltb_lt. lia.
Qed.

Lemma ordered_app_named prev named ks k :
  array_index k = None ->
  ordered prev named ks = true -> ordered prev named (ks ++ [k]) = true.
Proof.
  intros Hk. revert prev named.
  induction ks as [|k0 ks IH]; intros prev named; simpl.
  - now rewrite Hk.
  - destruct (array_index k0); [|apply IH].
    intros H. apply andb_true_iff in H. destruct H as [H1 H2].
    now rewrite H1, (IH _ _ H2).
Qed.

Lemma ordered_insert_index n k v o : forall prev,
  array_index k = Some n ->
  (forall k', In k' (keys o) -> array_index k' <> Some n) ->
  match prev with Some p => (p < n)%N | None => True end ->
  ordered prev false (keys o) = true ->
  ordered prev false (keys (insert_index n k v o)) = true.
Proof.
  induction o as [|[k' v'] o IH]; intros prev Hk Hfresh Hp Ho; simpl.
  - rewrite Hk. simpl. destruct prev; [|reflexivity].
    rewrite andb_true_r. now apply N.ltb_lt.
  - simpl in Ho. destruct (array_index k') as [n'|] eqn:E'.
    + apply andb_true_iff in Ho. destruct Ho as [H1 H2]. simpl in H1.
      destruct (N.ltb_spec n' n) as [L|L]; simpl; rewrite ?E', ?Hk; simpl.
      * rewrite H1. simpl. apply IH; try assumption.
        intros k0 H0. apply Hfresh. simpl. now right.
      * assert (n' <> n)
          by (intros ->; apply (Hfresh k'); [simpl; now left|assumption]).
        rewrite H2, andb_true_r.
        replace (n <? n')%N with true by (symmetry; apply N.ltb_lt; lia).
        rewrite andb_true_r. destruct prev; [|reflexivity].
        now apply N.ltb_lt.
    + simpl. rewrite Hk, E'. simpl.
      rewrite (ordered_named_prev (Some n) prev), Ho, andb_true_r.
      destruct prev; [|reflexivity]. now apply N.ltb_lt.
Qed.

(** [o[k] = v] keeps a property list one. *)
Lemma set_wf o k v : wf o -> wf (set o k v).
Proof.
  unfold wf, set. intros [Hnd Ho].
  destruct (has o k) eqn:Hh; [now rewrite keys_update|].
  apply has_false_iff in Hh.
  assert (Hk : ~ In k (keys o)) by (rewrite in_keys_iff; tauto).
  destruct (array_index k) as [n|] eqn:E.
  - split; [now apply NoDup_insert_index|].
    apply ordered_insert_index; try assumption; [|exact I].
    intros k' Hin E'. apply Hk.
    now rewrite (@array_index_inj k k' n E E').
  - unfold keys. rewrite map_app. simpl. split.
    + apply NoDup_app; [assumption|constructor; [tauto|constructor]|].
      intros a Ha [<-|[]]. now apply Hk.
    + now apply ordered_app_named.
Qed.

Lemma keys_delete o k :
  keys (delete o k) = filter (fun k' => negb (String.eqb k' k)) (keys o).
Proof.
  unfold keys. induction o as [|[k' v'] o IH]; simpl; [reflexivity|].
  destruct (String.eqb k' k); simpl; now rewrite IH.
Qed.

Lemma ordered_filter (f : string -> bool) ks : forall prev named,
  ordered prev named ks = true -> ordered prev named (filter f ks) = true.
Proof.
  induction ks as [|k ks IH]; intros prev named H; simpl; [reflexivity|].
  simpl in H. destruct (array_index k) as [n|] eqn:E.
  - apply andb_true_iff in H. destruct H as [H1 H2].
    apply andb_true_iff in H1. destruct H1 as [Hn Hp].
    apply negb_true_iff in Hn. subst named.
    destruct (f k); simpl.
    + rewrite E, Hp. simpl. now apply IH.
    + apply ordered_lower with (p := n); [now apply IH|].
      destruct prev as [q|]; [|exact I]. apply N.ltb_lt in Hp. lia.
  - destruct (f k); simpl.
    + rewrite E. now apply IH.
    + destruct named; [now apply IH|].
      apply ordered_named_false. now apply IH.
Qed.

(** [delete o[k]] keeps a property list one. *)
Lemma delete_wf o k : wf o -> wf (delete o k).
Proof.
  unfold wf. rewrite keys_delete. intros [Hnd Ho]. split.
  - now apply NoDup_filter.
  - now apply ordered_filter.
Qed.

(** What a JSON text defines is a property list. *)
Lemma build_is_wf o : forall acc, wf acc -> wf (build acc o).
Proof.
  unfold build. induction o as [|[k v] o IH]; intros acc H; simpl;
    [assumption|].
  apply IH. now apply set_wf.
Qed.

Lemma step_wf st c st' :
  JSON.step st c = Some st' -> reading_wf st -> reading_wf st'.
Proof.
  destruct st; simpl; intros H Hwf;
    repeat match type of H with
    | (if ?b then _ else _) = _ => destruct b
    | match ?x with _ => _ end = _ => destruct x
    end;
    try discriminate; injection H as <-; simpl; try assumption.
  - split; [constructor|reflexivity].
  - destruct sl; simpl; [assumption|now apply set_wf].
Qed.

Lemma run_wf text : forall st st',
  JSON.run st text = Some st' -> reading_wf st -> reading_wf st'.
Proof.
  induction text as [|c text IH]; intros st st' H Hwf; simpl in H.
  - now injection H as <-.
  - destruct (JSON.step st c) as [st1|] eqn:E; [|discriminate].
    eapply IH; eauto. eapply step_wf; eauto.
Qed.

(** What [JSON.parse] returns is a property list. *)
Lemma parse_wf text o : JSON.parse text = Some o -> wf o.
Proof.
  unfold JSON.parse. destruct (JSON.run JSON.Start text) as [st|] eqn:E;
    [|discriminate].
  destruct st; try discriminate. intros H. injection H as <-.
  exact (run_wf _ _ E I).
Qed.

Section KeptStages.
Import Script PromiseFacts ScriptFacts RunFacts.

Variable remote : Remote.

Lemma forEach_wf {A : Type} (g : A -> World -> World) xs :
  (forall x w, wf (ledger w) -> wf (ledger (g x w))) ->
  forall w, wf (ledger w) -> wf (ledger (forEach xs g w)).
Proof.
  intros Hg. induction xs as [|x xs IH]; intros w H; simpl; [assumption|].
  apply IH, Hg, H.
Qed.

Lemma checked_wf batch w :
  wf (ledger w) -> wf (ledger (checked remote batch w)).
Proof.
  intros H. unfold checked. destruct (settle_all _).
  - apply forEach_wf; [intros; now apply delete_wf|].
    apply forEach_wf; [intros; now apply set_wf|].
    now rewrite sent_ledger.
  - apply forEach_wf; [intros; now apply set_wf|]. simpl.
    now rewrite sent_ledger.
Qed.

Lemma deleted_wf batch w :
  wf (ledger w) -> wf (ledger (deleted remote batch w)).
Proof.
  intros H.
  assert (H1 : wf (ledger (forEach batch (deleted_one remote) w))).
  { apply forEach_wf; [|assumption]. intros x w0 H0. unfold deleted_one.
    destruct (confirmed remote x); simpl; [now apply set_wf|assumption]. }
  unfold deleted. now destruct (settle_all _).
Qed.

Lemma batchCheckStreamStatuses_wf ids w :
  wf (ledger w) -> wf (ledger (snd (batchCheckStreamStatuses remote ids w))).
Proof.
  intros H. rewrite batchCheckStreamStatuses_run. simpl.
  apply forEach_wf; [|assumption]. intros b w0. apply checked_wf.
Qed.

Lemma deleteStreams_wf argv w :
  wf (ledger w) -> wf (ledger (snd (deleteStreams remote argv w))).
Proof.
  intros H. unfold deleteStreams. destruct (dryRun argv); [assumption|].
  rewrite batchDeleteStreams_run. simpl.
  apply forEach_wf; [|assumption]. intros b w0. apply deleted_wf.
Qed.

Lemma after_classification_wf argv (classify : Promise unit) :
  triple (fun w => wf (ledger w)) classify (fun w => wf (ledger w)) ->
  triple (fun w => wf (ledger w))
    (catch_
       (then_ (then_ (then_ (then_
          classify
          (fun _ => storeStreamStatus remote))
          (fun _ => deleteStreams remote argv))
          (fun _ => storeStreamStatus remote))
          (fun _ => report))
       (fun err => effect (print (ErrorUncaught err))))
    (fun w => wf (ledger w)).
Proof.
  intros Hc.
  assert (Hstore : forall a : unit,
            triple (fun w => wf (ledger w)) (storeStreamStatus remote)
              (fun w => wf (ledger w))).
  { intros _ w H. cbv beta.
    now rewrite (proj1 (storeStreamStatus_ledger remote w)). }
  apply catch_triple; [|intros e w H; exact H].
  apply then_triple;
    [apply then_triple; [apply then_triple; [apply then_triple|]|]|];
    try assumption.
  - intros _ w H. now apply deleteStreams_wf.
  - intros _ w H. cbv beta. now rewrite (proj1 (report_ledger w)).
Qed.

(** A resumed run and a fresh run hold a property list at every stage:
    the checkpoints they write are read back as they were. *)
Lemma resume_wf argv :
  triple (fun w => wf (ledger w)) (resume remote argv)
    (fun w => wf (ledger w)).
Proof.
  apply after_classification_wf. apply then_triple.
  - intros w H. unfold getStreamStatus.
    destruct (file w) as [text|]; [|assumption].
    destruct (JSON.parse text) as [o|] eqn:E; [|assumption].
    simpl. now apply parse_wf with (text := text).
  - intros _ w H. now apply batchCheckStreamStatuses_wf.
Qed.

Lemma start_wf argv youngest oldest :
  triple (fun w => wf (ledger w)) (start remote argv youngest oldest)
    (fun w => wf (ledger w)).
Proof.
  apply after_classification_wf. intros w H. cbv beta.
  unfold then_ at 1, listStreamsRequest, then_ at 1.
  destruct (searches remote); simpl; [|assumption].
  apply batchCheckStreamStatuses_wf. simpl. split; [constructor|reflexivity].
Qed.

End KeptStages.

End WfFacts.

(** ** The checkpoint *)

Section CheckpointClaims.
Import JsObject JsObjectFacts JSONFacts Script RunFacts.

Variable remote : Remote.

(** C9.  When the file can be written, saving a ledger is fulfilled and
    leaves its JSON text in the checkpoint file; parsing that text gives
    the ledger back, so loading the checkpoint in any world whose file
    holds it makes the same ledger the current one; and saving the same
    ledger again leaves the same text in the file. *)
Theorem checkpoint_round_trip (w : World) :
  JsObject.wf (ledger w) -> writeFile_error remote = None ->
  let saved := snd (storeStreamStatus remote w) in
  fst (storeStreamStatus remote w) = Fulfilled tt /\
  file saved = Some (JSON.stringify (ledger w)) /\
  JSON.parse (JSON.stringify (ledger w)) = Some (ledger w) /\
  (forall w0,
     file w0 = file saved ->
     getStreamStatus w0 = (Fulfilled tt, with_ledger (ledger w) w0)) /\
  file (snd (storeStreamStatus remote saved)) = file saved.
Proof.
  intros Hwf Hfs. unfold storeStreamStatus. rewrite Hfs. simpl.
  repeat split.
  - now apply parse_stringify_wf.
  - intros w0 Hf.
    apply getStreamStatus_loads with (text := JSON.stringify (ledger w)).
    + exact Hf.
    + now apply parse_stringify_wf.
Qed.

End CheckpointClaims.

(** ** Resuming with more ids than one batch *)

Section ResumeClaims.
Import JsObject Batcher Script Samples.

Ltac not_among :=
  let H := fresh in
  intros H; vm_compute in H;
  repeat (destruct H as [H|H]; [discriminate H|]); exact H.

(** C8 (code defect).  A checkpoint with eleven "unknown" ids: the
    resumed run takes all eleven for re-classification, queries the
    first ten only and leaves "k" unknown although the API would have
    answered.  A checkpoint with eleven "inactive" ids: the deletion
    phase takes all eleven, sends ten delete requests and leaves "k"
    inactive. *)
Theorem resume_leaves_eleventh_out :
  (let w := checkpoint (ledger_of "unknown" eleven) in
   let w' := snd (resume calm live w) in
   streamIdsToBeChecked (ledger_of "unknown" eleven) = eleven /\
   ops_counts calm "k" = Fulfilled [0; 0]%Z /\
   ~ In (GetTimeseries "k") (issued w') /\
   get (ledger w') "k" = Some "unknown" /\
   get (ledger w') "a" = Some "deleted") /\
  (let w := checkpoint (ledger_of "inactive" eleven) in
   let w' := snd (resume calm live w) in
   streamIdsToBeDeleted (ledger_of "inactive" eleven) = eleven /\
   searches_delete calm "k" = Fulfilled tt /\
   ~ In (DeleteSearch "k") (issued w') /\
   get (ledger w') "k" = Some "inactive" /\
   get (ledger w') "a" = Some "deleted").
Proof.
  split; cbv zeta; repeat split; try (vm_compute; reflexivity); not_among.
Qed.

(** The checkpoint [{A: "unknown", B: "inactive", C: "deleted"}]: the
    resumed run queries A only, then deletes A (found inactive) and B. *)
Example resume_abc :
  let w' := snd (resume calm live (checkpoint abc)) in
  issued w' = [GetTimeseries "A"; DeleteSearch "A"; DeleteSearch "B"] /\
  ledger w' = ledger_of "deleted" ["A"; "B"; "C"] /\
  console w' = [InfoReport [] [] ["A"; "B"; "C"]].
Proof. vm_compute. repeat split. Qed.

End ResumeClaims.

(** ** The statements at sample inputs *)

Section Witnesses.
Import JsObject Batcher Script Samples.

Ltac distinct :=
  repeat (constructor; [simpl; intuition discriminate|]); constructor.

Ltac one_of :=
  let H := fresh in
  intros ? H; simpl in H;
  repeat (destruct H as [H|H]; [subst; eexists; reflexivity|]);
  contradiction.

Lemma quiet_sample : quiet [0; 0]%Z.
Proof. intros p [<-|[<-|[]]]; lia. Defined.

Lemma busy_sample : busy [0; 3; 0]%Z.
Proof. exists 3%Z. split; [simpl; tauto|lia]. Defined.

Lemma filterBatch_classifies_witness :
  (forall i, In i ["s1"; "s2"] ->
     exists counts, ops_counts flaky i = Fulfilled counts) /\
  let w := holding (ledger_of "unknown" ["s1"; "s2"; "s4"]) in
  let w' := snd (filterBatch flaky ["s1"; "s2"] w) in
  get (ledger w') "s1" = Some "inactive" /\
  get (ledger w') "s2" = None /\
  get (ledger w') "s4" = Some "unknown".
Proof.
  assert (H : forall i, In i ["s1"; "s2"] ->
                exists counts, ops_counts flaky i = Fulfilled counts)
    by one_of.
  split; [exact H|].
  destruct (@filterBatch_classifies flaky ["s1"; "s2"]
              (holding (ledger_of "unknown" ["s1"; "s2"; "s4"])) H)
    as [_ [Hin Hout]].
  split; [|split].
  - apply (Hin "s1" [0; 0]%Z); [simpl; tauto|reflexivity|exact quiet_sample].
  - apply (Hin "s2" [0; 3; 0]%Z); [simpl; tauto|reflexivity|exact busy_sample].
  - apply (Hout "s4"). simpl. intuition discriminate.
Defined.

Lemma classify_failure_contained_witness :
  (In "s3" (firstn 10 twenty) /\
   ops_counts flaky "s3" = Rejected (StatusCodeError 429) /\
   NoDup twenty /\ In (firstn 10 twenty) (split twenty None None)) /\
  let w' := snd (batchCheckStreamStatuses flaky twenty (holding empty)) in
  fst (batchCheckStreamStatuses flaky twenty (holding empty)) = Fulfilled tt /\
  get (ledger w') "s1" = Some "unknown" /\
  get (ledger w') "s2" = None /\
  get (ledger w') "i" = Some "inactive".
Proof.
  assert (H1 : In "s3" (firstn 10 twenty)) by (simpl; tauto).
  assert (H2 : ops_counts flaky "s3" = Rejected (StatusCodeError 429))
    by reflexivity.
  assert (H3 : NoDup twenty) by (unfold twenty; distinct).
  assert (H4 : In (firstn 10 twenty) (split twenty None None))
    by (vm_compute; left; reflexivity).
  assert (H5 : In (skipn 10 twenty) (split twenty None None))
    by (vm_compute; right; left; reflexivity).
  split; [tauto|].
  destruct (@classify_failure_contained flaky (firstn 10 twenty) "s3"
              (StatusCodeError 429) H1 H2) as [_ Hrun].
  destruct (Hrun twenty (holding empty) H3 H4) as [Hf [Hu Hother]].
  split; [exact Hf|]. split; [|split].
  - apply Hu. simpl. tauto.
  - apply (Hother (skipn 10 twenty) H5) with (c := [0; 3; 0]%Z);
      [one_of|simpl; tauto|reflexivity|exact busy_sample].
  - apply (Hother (skipn 10 twenty) H5) with (c := [0; 0]%Z);
      [one_of|simpl; tauto|reflexivity|exact quiet_sample].
Defined.


Lemma deleted_is_never_overwritten_witness :
  get (ledger (holding abc)) "C" = Some "deleted" /\
  get (ledger (run_passes
                 [Classify flaky; Act flaky live; Classify calm; Act calm live]
                 (holding abc))) "C" = Some "deleted" /\
  get (ledger (snd (resume calm live (checkpoint abc)))) "C" = Some "deleted".
Proof.
  assert (H : get (ledger (holding abc)) "C" = Some "deleted") by reflexivity.
  destruct (@deleted_is_never_overwritten calm (holding abc) "C" H)
    as [_ [_ [_ [_ [Hpasses Hresume]]]]].
  split; [exact H|]. split; [apply Hpasses|].
  apply (Hresume live (checkpoint abc) (JSON.stringify abc)); reflexivity.
Defined.

Lemma dry_run_skips_deletion_witness :
  dryRun dry = true /\
  let w := checkpoint abc in
  let w' := snd (resume calm dry w) in
  ledger w' =
    ledger (snd (then_ getStreamStatus (fun _ => checkUnknown calm) w)) /\
  forall x, In (DeleteSearch x) (issued w') -> In (DeleteSearch x) (issued w).
Proof.
  assert (H : dryRun dry = true) by reflexivity.
  split; [exact H|].
  destruct (@dry_run_skips_deletion calm dry H) as [_ [Hresume _]].
  exact (Hresume (checkpoint abc)).
Defined.

Lemma checkpoint_round_trip_witness :
  (wf (ledger (holding edited)) /\ writeFile_error calm = None) /\
  JSON.parse (JSON.stringify edited) = Some edited /\
  getStreamStatus (snd (storeStreamStatus calm (holding edited))) =
    (Fulfilled tt,
     with_ledger edited (snd (storeStreamStatus calm (holding edited)))).
Proof.
  assert (H1 : wf (ledger (holding edited)))
    by (split; [simpl; distinct|reflexivity]).
  assert (H2 : writeFile_error calm = None) by reflexivity.
  split; [tauto|].
  destruct (@checkpoint_round_trip calm (holding edited) H1 H2)
    as [_ [_ [Hparse [Hload _]]]].
  split; [exact Hparse|]. apply Hload. reflexivity.
Defined.

Lemma unrecognised_status_kept_unreported_witness :
  (get (ledger (holding edited)) "B" = Some "done" /\
   "done" <> "unknown" /\ "done" <> "inactive" /\ "done" <> "deleted") /\
  get (ledger (snd (resume calm live (checkpoint edited)))) "B"
    = Some "done" /\
  exists unknown inactive deleted,
    snd (report (holding edited)) =
      print (InfoReport unknown inactive deleted) (holding edited) /\
    ~ In "B" unknown /\ ~ In "B" inactive /\ ~ In "B" deleted.
Proof.
  assert (H0 : get (ledger (holding edited)) "B" = Some "done")
    by reflexivity.
  assert (H1 : "done" <> "unknown") by discriminate.
  assert (H2 : "done" <> "inactive") by discriminate.
  assert (H3 : "done" <> "deleted") by discriminate.
  split; [tauto|].
  destruct (@unrecognised_status_kept_unreported calm (holding edited)
              "B" "done" H0 H1 H2 H3) as [_ [_ [_ [Hresume Hreport]]]].
  split; [|exact Hreport].
  apply (Hresume live (checkpoint edited) (JSON.stringify edited));
    reflexivity.
Defined.

End Witnesses.

(** * Further properties *)

(** ** The shape of the batches *)

Module BatchShape.
Import Batcher BatcherFacts.

Lemma split_from_exact {A : Type} (all : list A) :
  forall n curr res,
    length all - curr <= n ->
    res <> [] ->
    split all (Some curr) (Some res) =
    res ++ map (fun i => slice all (curr + i * BATCH_SIZE)
                           (curr + i * BATCH_SIZE + BATCH_SIZE))
             (seq 0 ((length all - curr) / BATCH_SIZE)).
Proof.
  induction n as [|n IH]; intros curr res Hn Hres;
    rewrite split_equation_1; cbv zeta;
    assert (Hlen : (length res =? 0) = false)
      by (apply Nat.eqb_neq; destruct res; simpl; congruence);
    rewrite Hlen, andb_false_r;
    destruct (sumbool_of_bool (length all <? curr + BATCH_SIZE)) as [Hlt|Hge].
  - apply Nat.ltb_lt in Hlt. unfold BATCH_SIZE in *.
    rewrite Nat.div_small by lia. cbn [seq map]. now rewrite app_nil_r.
  - apply Nat.ltb_ge in Hge. unfold BATCH_SIZE in *. lia.
  - apply Nat.ltb_lt in Hlt. unfold BATCH_SIZE in *.
    rewrite Nat.div_small by lia. cbn [seq map]. now rewrite app_nil_r.
  - apply Nat.ltb_ge in Hge.
    rewrite IH; [|unfold BATCH_SIZE in *; lia|now destruct res].
    rewrite <- app_assoc. f_equal.
    replace ((length all - curr) / BATCH_SIZE)
      with (S ((length all - (curr + BATCH_SIZE)) / BATCH_SIZE)).
    + cbn [seq map app]. rewrite Nat.mul_0_l, Nat.add_0_r. f_equal.
      rewrite <- seq_shift, map_map. apply map_ext. intros i.
      f_equal; unfold BATCH_SIZE; lia.
    + replace (length all - curr)
        with (length all - (curr + BATCH_SIZE) + 1 * BATCH_SIZE) by lia.
      rewrite Nat.div_add by (unfold BATCH_SIZE; lia). lia.
Qed.

Lemma split_long {A : Type} (all : list A) :
  BATCH_SIZE <= length all ->
  split all None None =
  map (fun i => slice all (i * BATCH_SIZE) (i * BATCH_SIZE + BATCH_SIZE))
    (seq 0 (length all / BATCH_SIZE)).
Proof.
  intros Hge. rewrite split_equation_1; cbv zeta; cbn [Nat.add].
  destruct (sumbool_of_bool (length all <? BATCH_SIZE)) as [H|_];
    [apply Nat.ltb_lt in H; lia|].
  replace (length all <? BATCH_SIZE) with false
    by (symmetry; apply Nat.ltb_ge; assumption).
  cbn [andb app].
  rewrite (@split_from_exact A all (length all)) by (try lia; congruence).
  replace (length all / BATCH_SIZE)
    with (S ((length all - BATCH_SIZE) / BATCH_SIZE)).
  - cbn [seq map app]. f_equal.
    rewrite <- seq_shift, map_map. apply map_ext. intros i.
    f_equal; unfold BATCH_SIZE; lia.
  - replace (length all) with (length all - BATCH_SIZE + 1 * BATCH_SIZE)
      at 2 by lia.
    rewrite Nat.div_add by (unfold BATCH_SIZE; lia). lia.
Qed.

Lemma slice_length {A : Type} (all : list A) from to :
  from <= to -> to <= length all -> length (slice all from to) = to - from.
Proof.
  intros H1 H2. unfold slice. rewrite length_firstn, length_skipn. lia.
Qed.

End BatchShape.

Section BatchShapeClaims.
Import Batcher BatcherFacts BatchShape MoreSamples.

(** X1.  For ten ids or more, split returns the whole batches of the
    input and nothing else: as many batches as ten goes into the number
    of ids, the i-th being the ten ids from position 10 i on. *)
Theorem split_whole_batches (A : Type) (all : list A) :
  BATCH_SIZE <= length all ->
  split all None None =
    map (fun i => slice all (i * BATCH_SIZE) (i * BATCH_SIZE + BATCH_SIZE))
      (seq 0 (length all / BATCH_SIZE)) /\
  length (split all None None) = length all / BATCH_SIZE /\
  (forall b, In b (split all None None) -> length b = BATCH_SIZE).
Proof.
  intros Hge. rewrite split_long by assumption. split; [reflexivity|].
  split; [now rewrite length_map, length_seq|].
  intros b Hb. apply in_map_iff in Hb. destruct Hb as [i [<- Hi]].
  apply in_seq in Hi. rewrite slice_length; [lia|lia|].
  pose proof (Nat.div_mod_eq (length all) BATCH_SIZE).
  assert (S i * BATCH_SIZE <= length all / BATCH_SIZE * BATCH_SIZE)
    by (apply Nat.mul_le_mono_r; lia).
  lia.
Qed.

(** X2.  The batches of split put together are the input exactly when
    the input has fewer than ten ids or a multiple of ten. *)
Theorem split_covers_iff (A : Type) (all : list A) :
  concat (split all None None) = all <->
  length all < BATCH_SIZE \/ length all mod BATCH_SIZE = 0.
Proof. apply split_concat_complete_iff. Qed.

(** X3.  split always returns at least one batch; its batches put
    together are a prefix of the input, in order, and what is left out is
    fewer than ten ids: the ids after the last whole batch. *)
Theorem split_prefix_short_rest (A : Type) (all : list A) :
  split all None None <> [] /\
  exists rest,
    all = concat (split all None None) ++ rest /\
    length rest < BATCH_SIZE /\
    (BATCH_SIZE <= length all -> length rest = length all mod BATCH_SIZE).
Proof.
  split.
  - destruct (Nat.lt_ge_cases (length all) BATCH_SIZE) as [H|H].
    + rewrite split_short by assumption. discriminate.
    + rewrite split_long by assumption.
      destruct (length all / BATCH_SIZE) eqn:E; [|discriminate].
      apply Nat.div_small_iff in E; unfold BATCH_SIZE in *; lia.
  - rewrite split_concat.
    destruct (length all <? BATCH_SIZE) eqn:Hlt.
    + apply Nat.ltb_lt in Hlt. exists []. rewrite app_nil_r.
      split; [reflexivity|]. split; [unfold BATCH_SIZE; simpl; lia|lia].
    + apply Nat.ltb_ge in Hlt.
      exists (skipn (BATCH_SIZE * (length all / BATCH_SIZE)) all).
      split; [symmetry; apply firstn_skipn|].
      rewrite length_skipn.
      pose proof (Nat.div_mod_eq (length all) BATCH_SIZE).
      pose proof (Nat.mod_upper_bound (length all) BATCH_SIZE).
      unfold BATCH_SIZE in *. lia.
Qed.

Lemma split_whole_batches_witness :
  BATCH_SIZE <= length twentyfive /\
  split twentyfive None None = [seq 0 10; seq 10 10] /\
  length (split twentyfive None None) = 2.
Proof.
  assert (H : BATCH_SIZE <= length twentyfive)
    by (unfold BATCH_SIZE, twentyfive; rewrite length_seq; lia).
  split; [exact H|].
  destruct (@split_whole_batches nat twentyfive H) as [Hs [Hn _]].
  split; [rewrite Hs; reflexivity|rewrite Hn; reflexivity].
Defined.

End BatchShapeClaims.

(** ** Listing the candidates *)

Module ListingFacts.
Import Script.

Lemma prefix_spec s1 : forall s2,
  String.prefix s1 s2 = true <-> exists post, s2 = (s1 ++ post)%string.
Proof.
  induction s1 as [|a s1 IH]; intros s2.
  - destruct s2; simpl; split; eauto.
  - destruct s2 as [|b s2]; cbn [String.prefix append].
    + split; [discriminate|]. intros [post H]. discriminate.
    + destruct (ascii_dec a b) as [->|Hne].
      * rewrite IH. split; intros [post H]; exists post; congruence.
      * split; [discriminate|]. intros [post H]. congruence.
Qed.

Lemma index_spec s1 s2 :
  (exists n, String.index 0 s1 s2 = Some n) <-> contains s2 s1.
Proof.
  unfold contains. induction s2 as [|b s2 IH].
  - simpl. destruct s1 as [|a s1].
    + split; [intros _; exists "", ""; reflexivity|eauto].
    + split; [intros [n H]; discriminate|].
      intros [pre [post H]]. destruct pre; discriminate.
  - cbn [String.index]. destruct (String.prefix s1 (String b s2)) eqn:Hp.
    + apply prefix_spec in Hp. destruct Hp as [post Hp].
      split; [|eauto]. intros _. exists "", post. exact Hp.
    + split.
      * intros [n H]. destruct (String.index 0 s1 s2) as [m|] eqn:E;
          [|discriminate].
        destruct (proj1 IH (ex_intro _ m eq_refl)) as [pre [post Hs]].
        exists (String b pre), post. simpl. now rewrite Hs.
      * intros [pre [post H]]. destruct pre as [|c pre].
        -- simpl in H.
           assert (String.prefix s1 (String b s2) = true)
             by (apply prefix_spec; eauto).
           congruence.
        -- simpl in H. injection H as _ H.
           destruct (proj2 IH (ex_intro _ pre (ex_intro _ post H)))
             as [m ->].
           eauto.
Qed.

(** [s.includes(sub)] holds exactly when [sub] occurs in [s]. *)
Lemma includes_spec s sub : includes s sub = true <-> contains s sub.
Proof.
  rewrite <- index_spec. unfold includes.
  destruct (String.index 0 sub s); split; eauto; try discriminate.
  intros [n H]. discriminate.
Qed.

Lemma contains_longer s sub tail :
  contains s (sub ++ tail) -> contains s sub.
Proof.
  intros [pre [post H]]. exists pre, (tail ++ post)%string.
  rewrite H. clear H. induction pre as [|c pre IH]; simpl.
  - induction sub as [|c sub IH]; simpl; [reflexivity|now rewrite IH].
  - now rewrite IH.
Qed.

(** The words that protect a stream, as far as they matter. *)
Lemma protected_spec s :
  existsb (fun str => includes (name s) str || includes (query s) str)
    ["load"; "Load"; "Load-test"; "load-test"] = true <->
  contains (name s) "load" \/ contains (name s) "Load" \/
  contains (query s) "load" \/ contains (query s) "Load".
Proof.
  cbn [existsb]. rewrite !orb_true_iff, !includes_spec. split.
  - intros [[H|H]|[[H|H]|[[H|H]|[[H|H]|H]]]]; try discriminate; auto.
    + right; left. now apply contains_longer with (tail := "-test").
    + right; right; right. now apply contains_longer with (tail := "-test").
    + left. now apply contains_longer with (tail := "-test").
    + right; right; left. now apply contains_longer with (tail := "-test").
  - intros [H|[H|[H|H]]]; auto 6.
Qed.

End ListingFacts.

Section ListingClaims.
Import Script ListingFacts MoreSamples.

Variable remote : Remote.

(** X4.  A stream is excluded exactly when its name or its query holds
    "load" or "Load" (the two longer words of the list add nothing), or
    when it was created strictly inside the window: a stream created at
    the very start or end of the window is not excluded for its age. *)
Theorem excludeStream_spec (s : Stream) (youngest oldest : Z) :
  excludeStream s youngest oldest = true <->
  (contains (name s) "load" \/ contains (name s) "Load" \/
   contains (query s) "load" \/ contains (query s) "Load") \/
  (oldest < created_time s < youngest)%Z.
Proof.
  unfold excludeStream. cbv zeta.
  rewrite orb_true_iff, protected_spec, andb_true_iff, !Z.ltb_lt. tauto.
Qed.

(** X5.  When the list request succeeds, it is the only request sent and
    the run gets the ids of exactly the listed streams that are not
    excluded and whose query holds the service filter (every stream when
    the filter is empty), no more than the API listed. *)
Theorem listStreamsRequest_lists (args : Argv) (youngest oldest : Z)
    (w : World) (data : list Stream) :
  searches remote = Fulfilled data ->
  exists ids,
    listStreamsRequest remote args youngest oldest w =
      (Fulfilled ids, send GetSearches w) /\
    length ids <= length data /\
    forall x,
      In x ids <->
      exists s,
        In s data /\ stream_id s = x /\
        excludeStream s youngest oldest = false /\
        (service args = "" \/ contains (query s) (service args)).
Proof.
  intros Hs. unfold listStreamsRequest, then_. rewrite Hs.
  eexists. split; [reflexivity|]. split.
  - rewrite length_map.
    eapply Nat.le_trans; [apply filter_length_le|apply filter_length_le].
  - intros x. rewrite in_map_iff. split.
    + intros [s [Hid Hin]]. apply filter_In in Hin. destruct Hin as [Hin Hsv].
      apply filter_In in Hin. destruct Hin as [Hin Hex].
      exists s. repeat split; try assumption.
      * now apply negb_true_iff.
      * unfold isInService in Hsv.
        destruct (String.eqb_spec (service args) ""); [now left|].
        right. now apply includes_spec.
    + intros [s [Hin [Hid [Hex Hsv]]]]. exists s. split; [assumption|].
      apply filter_In. split.
      * apply filter_In. split; [assumption|]. now rewrite Hex.
      * unfold isInService.
        destruct (String.eqb_spec (service args) ""); [reflexivity|].
        destruct Hsv as [Hsv|Hsv]; [congruence|]. now apply includes_spec.
Qed.

End ListingClaims.

Section ListingWitnesses.
Import Script MoreSamples.

Lemma listStreamsRequest_lists_witness :
  searches serving = Fulfilled listing /\
  listStreamsRequest serving any_service 2000 1000 nothing =
    (Fulfilled ["s1"; "s4"], send GetSearches nothing) /\
  listStreamsRequest serving cart_only 2000 1000 nothing =
    (Fulfilled ["s4"], send GetSearches nothing).
Proof.
  assert (H : searches serving = Fulfilled listing) by reflexivity.
  split; [exact H|].
  destruct (@listStreamsRequest_lists serving any_service 2000 1000 nothing
              listing H) as [ids [Hrun _]].
  split; [|reflexivity].
  rewrite Hrun. vm_compute in Hrun. injection Hrun as ->. reflexivity.
Defined.

End ListingWitnesses.

(** ** Runs that meet an error *)

Module StageFacts.
Import JsObject JsObjectFacts PromiseFacts Batcher BatcherFacts Script.
Import ScriptFacts RunFacts.

Lemma forEach_file_only {A : Type} (g : A -> World -> World) xs :
  (forall x w, file (g x w) = file w) ->
  forall w, file (forEach xs g w) = file w.
Proof.
  intros Hg. induction xs as [|x xs IH]; intros w; simpl; [reflexivity|].
  now rewrite IH, Hg.
Qed.

Lemma start_unfold remote argv youngest oldest :
  start remote argv youngest oldest =
  after_classification remote argv
    (fresh_classification remote argv youngest oldest).
Proof. reflexivity. Qed.

Lemma resume_unfold remote argv :
  resume remote argv =
  after_classification remote argv (resumed_classification remote).
Proof. reflexivity. Qed.

Section StageEffects.

Variable remote : Remote.

Lemma checked_file batch w : file (checked remote batch w) = file w.
Proof.
  unfold checked. destruct (settle_all _);
    rewrite !forEach_file_only by reflexivity; simpl;
    now rewrite ?forEach_file_only by reflexivity.
Qed.

Lemma deleted_file batch w : file (deleted remote batch w) = file w.
Proof.
  assert (H : file (forEach batch (deleted_one remote) w) = file w).
  { apply forEach_file_only. intros x w0. unfold deleted_one.
    now destruct (confirmed remote x). }
  unfold deleted. now destruct (settle_all _).
Qed.

Lemma batchCheckStreamStatuses_file ids w :
  file (snd (batchCheckStreamStatuses remote ids w)) = file w.
Proof.
  rewrite batchCheckStreamStatuses_run. simpl.
  apply forEach_file_only. intros b w0. apply checked_file.
Qed.

Lemma batchCheckStreamStatuses_fst ids w :
  fst (batchCheckStreamStatuses remote ids w) = Fulfilled tt.
Proof. now rewrite batchCheckStreamStatuses_run. Qed.

Lemma deleteStreams_fst argv w :
  fst (deleteStreams remote argv w) = Fulfilled tt.
Proof.
  unfold deleteStreams. destruct (dryRun argv); [reflexivity|].
  now rewrite batchDeleteStreams_run.
Qed.

Lemma batchCheckStreamStatuses_deletes ids w x :
  In (DeleteSearch x)
    (issued (snd (batchCheckStreamStatuses remote ids w))) ->
  In (DeleteSearch x) (issued w).
Proof.
  rewrite batchCheckStreamStatuses_run. simpl.
  rewrite forEach_checked_issued, in_app_iff, in_map_iff.
  intros [H|[i [H _]]]; [assumption|discriminate].
Qed.

Lemma batchCheckStreamStatuses_no_new_report ids w :
  no_new_report w (snd (batchCheckStreamStatuses remote ids w)).
Proof.
  rewrite batchCheckStreamStatuses_run. simpl.
  apply forEach_no_new_report. intros b w0 u i d H.
  apply checked_console in H. destruct H as [H|[e H]];
    [assumption|discriminate].
Qed.

(** *** What the two classifications leave alone *)

Lemma resumed_classification_frame w :
  let w1 := snd (resumed_classification remote w) in
  file w1 = file w /\
  (forall x, In (DeleteSearch x) (issued w1) -> In (DeleteSearch x) (issued w))
  /\ no_new_report w w1.
Proof.
  unfold resumed_classification, then_, getStreamStatus.
  destruct (file w) as [text|] eqn:Hf; simpl;
    [|rewrite Hf; repeat split; auto; intros u i d H; exact H].
  destruct (JSON.parse text) as [o|]; simpl;
    [|rewrite Hf; repeat split; auto; intros u i d H; exact H].
  unfold checkUnknown. repeat split.
  - now rewrite batchCheckStreamStatuses_file.
  - intros x H. now apply batchCheckStreamStatuses_deletes in H.
  - intros u i d H.
    now apply batchCheckStreamStatuses_no_new_report in H.
Qed.

Lemma fresh_classification_frame argv youngest oldest w :
  let w1 := snd (fresh_classification remote argv youngest oldest w) in
  file w1 = file w /\
  (forall x, In (DeleteSearch x) (issued w1) -> In (DeleteSearch x) (issued w))
  /\ no_new_report w w1.
Proof.
  unfold fresh_classification, then_ at 1, listStreamsRequest, then_.
  destruct (searches remote) as [data|e]; simpl.
  - repeat split.
    + now rewrite batchCheckStreamStatuses_file.
    + intros x H. apply batchCheckStreamStatuses_deletes in H. simpl in H.
      apply in_app_iff in H. destruct H as [H|[H|[]]];
        [assumption|discriminate].
    + intros u i d H.
      now apply batchCheckStreamStatuses_no_new_report in H.
  - repeat split; auto.
    + intros x H. apply in_app_iff in H. destruct H as [H|[H|[]]];
        [assumption|discriminate].
    + intros u i d H. exact H.
Qed.

(** *** The stages after classification, case by case *)

Lemma after_classification_rejected argv classify w e w1 :
  classify w = (Rejected e, w1) ->
  after_classification remote argv classify w =
  (Fulfilled tt, print (ErrorUncaught e) w1).
Proof.
  intros H. unfold after_classification, catch_, then_. now rewrite H.
Qed.

Lemma after_classification_write_fails argv classify w e w1 :
  writeFile_error remote = Some e ->
  classify w = (Fulfilled tt, w1) ->
  after_classification remote argv classify w =
  (Fulfilled tt, print (ErrorUncaught e) w1).
Proof.
  intros He H.
  unfold after_classification, catch_, then_, storeStreamStatus.
  now rewrite H, He.
Qed.

Lemma after_classification_ok argv classify w w1 :
  writeFile_error remote = None ->
  classify w = (Fulfilled tt, w1) ->
  let w2 := with_file (JSON.stringify (ledger w1)) w1 in
  let w3 := snd (deleteStreams remote argv w2) in
  let w4 := with_file (JSON.stringify (ledger w3)) w3 in
  after_classification remote argv classify w = report w4.
Proof.
  intros He H.
  unfold after_classification, catch_, then_, storeStreamStatus.
  rewrite H, He.
  pose proof (deleteStreams_fst argv
                (with_file (JSON.stringify (ledger w1)) w1)) as Hd.
  destruct (deleteStreams remote argv
              (with_file (JSON.stringify (ledger w1)) w1)) as [r w3].
  simpl in Hd. subst r. cbv zeta. simpl.
  unfold report, effect. reflexivity.
Qed.

Lemma fresh_classification_rejected argv youngest oldest w e :
  searches remote = Rejected e ->
  fresh_classification remote argv youngest oldest w =
  (Rejected e, send GetSearches w).
Proof.
  intros H.
  unfold fresh_classification, then_ at 1, listStreamsRequest, then_.
  now rewrite H.
Qed.

Lemma settles (classify : Promise unit) w :
  exists r w1, classify w = (r, w1) /\
    (r = Fulfilled tt \/ exists e, r = Rejected e).
Proof.
  destruct (classify w) as [[[]|e] w1]; eauto 6.
Qed.

End StageEffects.
End StageFacts.

Section ErrorClaims.
Import JsObject Script StageFacts RunFacts MoreSamples Samples.

Variable remote : Remote.

(** X6.  When the list request fails, a fresh run does nothing else: it
    sends no other request, leaves the ledger and the checkpoint file as
    they were, prints the error, and is fulfilled. *)
Theorem start_when_listing_fails (argv : Argv) (youngest oldest : Z)
    (w : World) (e : JsError) :
  searches remote = Rejected e ->
  start remote argv youngest oldest w =
  (Fulfilled tt, print (ErrorUncaught e) (send GetSearches w)).
Proof.
  intros H. rewrite start_unfold.
  apply after_classification_rejected.
  now apply fresh_classification_rejected.
Qed.


(** X8.  When the checkpoint cannot be written, a run stops after
    classification, resumed or fresh, dry or not: it is fulfilled, its
    last word on the console is an error, the file is as it was, the
    ledger is as classification left it, no delete request is sent and
    no report is printed. *)
Theorem write_failure_stops_the_run (argv : Argv) (e : JsError) :
  writeFile_error remote = Some e ->
  (forall w,
     let w1 := snd (resumed_classification remote w) in
     let w' := snd (resume remote argv w) in
     fst (resume remote argv w) = Fulfilled tt /\
     (exists e', w' = print (ErrorUncaught e') w1) /\
     file w' = file w /\
     (forall x,
        In (DeleteSearch x) (issued w') -> In (DeleteSearch x) (issued w)) /\
     no_new_report w w') /\
  (forall youngest oldest w,
     let w1 := snd (fresh_classification remote argv youngest oldest w) in
     let w' := snd (start remote argv youngest oldest w) in
     fst (start remote argv youngest oldest w) = Fulfilled tt /\
     (exists e', w' = print (ErrorUncaught e') w1) /\
     file w' = file w /\
     (forall x,
        In (DeleteSearch x) (issued w') -> In (DeleteSearch x) (issued w)) /\
     no_new_report w w').
Proof.
  intros He.
  assert (Htail : forall classify w,
            exists e',
              after_classification remote argv classify w =
              (Fulfilled tt, print (ErrorUncaught e') (snd (classify w)))).
  { intros classify w.
    destruct (settles classify w) as [r [w1 [Hc [->|[e' ->]]]]];
      rewrite Hc; simpl.
    - exists e. now apply after_classification_write_fails.
    - exists e'. now apply after_classification_rejected. }
  split.
  - intros w. cbv zeta. rewrite resume_unfold.
    destruct (Htail (resumed_classification remote) w) as [e' ->]. simpl.
    destruct (resumed_classification_frame remote w) as [Hf [Hd Hr]].
    repeat split; eauto.
    intros u i d H. apply Hr. simpl in H. apply in_app_iff in H.
    destruct H as [H|[H|[]]]; [assumption|discriminate].
  - intros youngest oldest w. cbv zeta. rewrite start_unfold.
    destruct (Htail (fresh_classification remote argv youngest oldest) w)
      as [e' ->]. simpl.
    destruct (fresh_classification_frame remote argv youngest oldest w)
      as [Hf [Hd Hr]].
    repeat split; eauto.
    intros u i d H. apply Hr. simpl in H. apply in_app_iff in H.
    destruct H as [H|[H|[]]]; [assumption|discriminate].
Qed.

End ErrorClaims.

Section ErrorWitnesses.
Import JsObject Script MoreSamples Samples.

Lemma start_when_listing_fails_witness :
  searches refusing = Rejected (StatusCodeError 401) /\
  start refusing any_service 2000 1000 (holding abc) =
  (Fulfilled tt,
   {| ledger := abc; file := None; issued := [GetSearches];
      console := [ErrorUncaught (StatusCodeError 401)] |}).
Proof.
  assert (H : searches refusing = Rejected (StatusCodeError 401))
    by reflexivity.
  split; [exact H|].
  exact (@start_when_listing_fails refusing any_service 2000 1000
           (holding abc) (StatusCodeError 401) H).
Defined.


Lemma write_failure_stops_the_run_witness :
  writeFile_error readonly = Some (SystemError "EACCES") /\
  let w' := snd (start readonly any_service 2000 1000 nothing) in
  file w' = None /\
  forall x, In (DeleteSearch x) (issued w') -> In (DeleteSearch x) [].
Proof.
  assert (H : writeFile_error readonly = Some (SystemError "EACCES"))
    by reflexivity.
  split; [exact H|].
  destruct (@write_failure_stops_the_run readonly any_service
              (SystemError "EACCES") H) as [_ Hstart].
  destruct (Hstart 2000%Z 1000%Z nothing) as [_ [_ [Hf [Hd _]]]].
  split; [exact Hf|exact Hd].
Defined.

End ErrorWitnesses.

(** ** What a run may delete and what it may write *)

Module LedgerFacts.
Import JsObject JsObjectFacts PromiseFacts Batcher BatcherFacts Script.
Import ScriptFacts RunFacts StageFacts WfFacts.

Section Ledger.

Variable remote : Remote.

(** A batch either has all its queries answered or has a failed one. *)
Lemma batch_cases {A : Type} (answer : string -> Settled A) batch :
  all_answered answer batch \/ some_rejected answer batch.
Proof.
  unfold all_answered, some_rejected.
  induction batch as [|i batch IH]; [left; intros i []|].
  destruct (answer i) as [a|e] eqn:E.
  - destruct IH as [IH|[j [e [Hj He]]]].
    + left. intros k [<-|Hk]; eauto.
    + right. exists j, e. split; [now right|assumption].
  - right. exists i, e. split; [now left|assumption].
Qed.

Lemma quiet_or_busy counts : quiet counts \/ busy counts.
Proof.
  destruct (existsb (fun p => (0 <? p)%Z) counts) eqn:E.
  - right. now apply busy_iff.
  - left. now apply quiet_iff.
Qed.

(** What a batch leaves for one of its own ids. *)
Lemma checked_values batch w j :
  In j batch ->
  (get (ledger (checked remote batch w)) j = Some "unknown" /\
   some_rejected (ops_counts remote) batch) \/
  (all_answered (ops_counts remote) batch /\
   exists c, ops_counts remote j = Fulfilled c /\
     ((quiet c /\ get (ledger (checked remote batch w)) j = Some "inactive")
      \/ (busy c /\ get (ledger (checked remote batch w)) j = None))).
Proof.
  intros Hj.
  destruct (batch_cases (ops_counts remote) batch) as [Hall|Hrej].
  - right. split; [assumption|]. destruct (Hall j Hj) as [c Hc].
    exists c. split; [assumption|].
    destruct (@checked_fulfilled remote batch w Hall j c Hj Hc) as [Hq Hb].
    destruct (quiet_or_busy c); [left|right]; auto.
  - left. split; [|assumption]. destruct Hrej as [i [e [Hi He]]].
    now apply checked_rejected with (i := i) (e := e).
Qed.

Lemma forEach_checked_cases batches w j :
  get (ledger (forEach batches (checked remote) w)) j = get (ledger w) j \/
  (In j (concat batches) /\
   (get (ledger (forEach batches (checked remote) w)) j = Some "unknown" \/
    get (ledger (forEach batches (checked remote) w)) j = None \/
    (get (ledger (forEach batches (checked remote) w)) j = Some "inactive"
     /\ exists c, ops_counts remote j = Fulfilled c /\ quiet c))).
Proof.
  revert w. induction batches as [|b bs IH]; intros w; simpl; [now left|].
  destruct (IH (checked remote b w)) as [Hsame|[Hin Hval]].
  - rewrite Hsame. destruct (in_dec string_dec j b) as [Hj|Hj].
    + right. split; [apply in_or_app; now left|].
      destruct (@checked_values b w j Hj)
        as [[Hu _]|[_ [c [Hc [[Hq Hi]|[Hb Hn]]]]]]; eauto 6.
    + left. now apply checked_frame.
  - right. split; [apply in_or_app; now right|assumption].
Qed.

(** An entry reads "inactive" after classification only if it did
    before or its query was answered with no activity. *)
Lemma batchCheckStreamStatuses_inactive ids w j :
  get (ledger (snd (batchCheckStreamStatuses remote ids w))) j
    = Some "inactive" ->
  get (ledger w) j = Some "inactive" \/
  (In j ids /\ exists c, ops_counts remote j = Fulfilled c /\ quiet c).
Proof.
  rewrite batchCheckStreamStatuses_run. simpl. intros H.
  destruct (forEach_checked_cases (split ids None None) w j)
    as [Hsame|[Hin [Hu|[Hn|[_ Hq]]]]]; try congruence.
  - left. congruence.
  - right. split; [now apply concat_split_incl|assumption].
Qed.

(** The delete requests of the stages after classification are for ids
    that read "inactive" when classification ended. *)
Lemma after_classification_deletes argv classify w x :
  let w1 := snd (classify w) in
  In (DeleteSearch x)
    (issued (snd (after_classification remote argv classify w))) ->
  In (DeleteSearch x) (issued w1) \/ get (ledger w1) x = Some "inactive".
Proof.
  cbv zeta.
  destruct (settles classify w) as [r [w1 [Hc [->|[e ->]]]]]; rewrite Hc;
    simpl.
  - destruct (writeFile_error remote) as [e|] eqn:He.
    + rewrite (@after_classification_write_fails remote argv classify w
                 _ _ He Hc).
      simpl. tauto.
    + rewrite (@after_classification_ok remote argv classify w _ He Hc).
      rewrite (proj2 (report_ledger _)). simpl.
      unfold deleteStreams. destruct (dryRun argv); simpl; [tauto|].
      rewrite batchDeleteStreams_run. simpl.
      rewrite forEach_deleted_issued, in_app_iff, in_map_iff. simpl.
      intros [H|[i [Hi Hin]]]; [now left|]. right.
      injection Hi as ->. apply concat_split_incl in Hin.
      now apply in_streamIdsToBeDeleted in Hin.
  - rewrite (@after_classification_rejected remote argv classify w _ _ Hc).
    simpl. tauto.
Qed.

(** *** Keys *)

Lemma keys_set_present o k v :
  get o k <> None -> keys (set o k v) = keys o.
Proof.
  intros H. unfold set. apply has_true_iff in H. rewrite H.
  apply keys_update.
Qed.

Lemma forEach_deleted_one_keys xs w :
  (forall i, In i xs -> In i (keys (ledger w))) ->
  keys (ledger (forEach xs (deleted_one remote) w)) = keys (ledger w).
Proof.
  revert w. induction xs as [|x xs IH]; intros w H; simpl; [reflexivity|].
  assert (Hx : keys (ledger (deleted_one remote x w)) = keys (ledger w)).
  { unfold deleted_one. destruct (confirmed remote x); simpl; [|reflexivity].
    apply keys_set_present. apply in_keys_iff. apply H. now left. }
  rewrite IH; [exact Hx|]. intros i Hi. rewrite Hx. apply H. now right.
Qed.

Lemma deleted_keys batch w :
  (forall i, In i batch -> In i (keys (ledger w))) ->
  keys (ledger (deleted remote batch w)) = keys (ledger w).
Proof.
  intros H. unfold deleted.
  destruct (settle_all _); simpl; now apply forEach_deleted_one_keys.
Qed.

Lemma forEach_deleted_keys batches w :
  (forall i, In i (concat batches) -> In i (keys (ledger w))) ->
  keys (ledger (forEach batches (deleted remote) w)) = keys (ledger w).
Proof.
  revert w. induction batches as [|b bs IH]; intros w H; simpl;
    [reflexivity|].
  assert (Hb : keys (ledger (deleted remote b w)) = keys (ledger w)).
  { apply deleted_keys. intros i Hi. apply H. simpl. apply in_or_app.
    now left. }
  rewrite IH; [exact Hb|]. intros i Hi. rewrite Hb. apply H. simpl.
  apply in_or_app. now right.
Qed.

(** *** Statuses *)

Lemma recognised_empty : recognised empty.
Proof. intros k s H. discriminate. Qed.

Lemma batchCheckStreamStatuses_recognised ids w :
  recognised (ledger w) ->
  recognised (ledger (snd (batchCheckStreamStatuses remote ids w))).
Proof.
  intros H k s. rewrite batchCheckStreamStatuses_run. simpl.
  destruct (forEach_checked_cases (split ids None None) w k)
    as [->|[_ [->|[->|[-> _]]]]]; intros E.
  - now apply (H k).
  - injection E as <-. auto.
  - discriminate.
  - injection E as <-. auto.
Qed.

Lemma deleteStreams_recognised argv w :
  recognised (ledger w) ->
  recognised (ledger (snd (deleteStreams remote argv w))).
Proof.
  intros H k s. unfold deleteStreams.
  destruct (dryRun argv); [apply H|].
  rewrite batchDeleteStreams_run. simpl. rewrite forEach_deleted_get.
  destruct (existsb _ _); intros E; [injection E as <-; auto|].
  now apply (H k).
Qed.

Lemma after_classification_recognised argv classify (P : World -> Prop) :
  triple P classify (fun w => recognised (ledger w)) ->
  triple P (after_classification remote argv classify)
    (fun w => recognised (ledger w)).
Proof.
  intros Hc.
  assert (Hstore : forall a : unit,
            triple (fun w => recognised (ledger w))
              (storeStreamStatus remote)
              (fun w => recognised (ledger w))).
  { intros _ w H. cbv beta.
    now rewrite (proj1 (storeStreamStatus_ledger remote w)). }
  unfold after_classification.
  apply catch_triple; [|intros e w H; exact H].
  apply then_triple;
    [apply then_triple; [apply then_triple; [apply then_triple|]|]|];
    try assumption.
  - intros _ w H. now apply deleteStreams_recognised.
  - intros _ w H. cbv beta. now rewrite (proj1 (report_ledger w)).
Qed.

End Ledger.
End LedgerFacts.

Section SafetyClaims.
Import JsObject JsObjectFacts PromiseFacts Batcher BatcherFacts Script.
Import ScriptFacts RunFacts StageFacts WfFacts LedgerFacts JSONFacts.

Variable remote : Remote.

Lemma resumed_classification_loaded w text o :
  file w = Some text -> JSON.parse text = Some o ->
  resumed_classification remote w = checkUnknown remote (with_ledger o w).
Proof.
  intros Hf Hp. unfold resumed_classification, then_.
  now rewrite (getStreamStatus_loads _ Hf Hp).
Qed.

Lemma fresh_classification_listed argv youngest oldest w data :
  searches remote = Fulfilled data ->
  exists ids,
    listStreamsRequest remote argv youngest oldest w =
      (Fulfilled ids, send GetSearches w) /\
    fresh_classification remote argv youngest oldest w =
      batchCheckStreamStatuses remote ids
        (with_ledger empty (send GetSearches w)).
Proof.
  intros Hs. unfold fresh_classification, then_ at 1.
  unfold listStreamsRequest, then_ at 1 2. rewrite Hs.
  eexists. split; reflexivity.
Qed.

(** X9.  Every delete request a resumed run sends is for an id that the
    checkpoint held as "inactive", or held as "unknown" and whose query
    was answered in this run with no activity.  An id held as "deleted",
    with any other status, or found active is never asked to be
    deleted. *)
Theorem resume_deletes_only_inactive (argv : Argv) (w : World)
    (text : string) (o : JsObject.t) (x : string) :
  file w = Some text -> JSON.parse text = Some o ->
  In (DeleteSearch x) (issued (snd (resume remote argv w))) ->
  In (DeleteSearch x) (issued w) \/
  get o x = Some "inactive" \/
  (get o x = Some "unknown" /\
   exists c, ops_counts remote x = Fulfilled c /\ quiet c).
Proof.
  intros Hf Hp H. rewrite resume_unfold in H.
  apply after_classification_deletes in H.
  rewrite (resumed_classification_loaded _ Hf Hp) in H.
  destruct H as [H|H].
  - left. unfold checkUnknown in H.
    now apply batchCheckStreamStatuses_deletes in H.
  - right. unfold checkUnknown in H.
    apply batchCheckStreamStatuses_inactive in H. simpl in H.
    destruct H as [H|[Hin Hq]]; [now left|right].
    split; [now apply in_streamIdsToBeChecked|assumption].
Qed.

(** X10.  Every delete request a fresh run sends is for an id of the
    list it was given whose query was answered with no activity. *)
Theorem start_deletes_only_inactive (argv : Argv) (youngest oldest : Z)
    (w : World) (x : string) :
  In (DeleteSearch x)
    (issued (snd (start remote argv youngest oldest w))) ->
  In (DeleteSearch x) (issued w) \/
  exists ids,
    fst (listStreamsRequest remote argv youngest oldest w) = Fulfilled ids /\
    In x ids /\
    exists c, ops_counts remote x = Fulfilled c /\ quiet c.
Proof.
  intros H. destruct (searches remote) as [data|e] eqn:Hs.
  - destruct (fresh_classification_listed argv youngest oldest w Hs)
      as [ids [Hl Hc]].
    rewrite start_unfold in H. apply after_classification_deletes in H.
    rewrite Hc in H. destruct H as [H|H].
    + left. apply batchCheckStreamStatuses_deletes in H. simpl in H.
      apply in_app_iff in H. destruct H as [H|[H|[]]];
        [assumption|discriminate].
    + right. exists ids. rewrite Hl. split; [reflexivity|].
      apply batchCheckStreamStatuses_inactive in H. simpl in H.
      destruct H as [H|H]; [discriminate|assumption].
  - left. rewrite start_unfold in H.
    rewrite (@after_classification_rejected remote argv _ w e
               (send GetSearches w)) in H
      by now apply fresh_classification_rejected.
    simpl in H. apply in_app_iff in H. destruct H as [H|[H|[]]];
      [assumption|discriminate].
Qed.

(** X11.  The deletion phase never adds or removes a ledger entry and
    keeps the order of the keys.  The only change it makes is to turn an
    entry from "inactive" to "deleted", and that only outside a dry run
    and when the delete request for that id succeeded. *)
Theorem deleteStreams_only_marks_deleted (argv : Argv) (w : World) :
  let w' := snd (deleteStreams remote argv w) in
  keys (ledger w') = keys (ledger w) /\
  forall k,
    get (ledger w') k = get (ledger w) k \/
    (get (ledger w) k = Some "inactive" /\
     get (ledger w') k = Some "deleted" /\
     dryRun argv = false /\
     exists u, searches_delete remote k = Fulfilled u).
Proof.
  cbv zeta. unfold deleteStreams. destruct (dryRun argv) eqn:Hdry.
  - simpl. split; [reflexivity|]. intros k. now left.
  - rewrite batchDeleteStreams_run. simpl. split.
    + apply forEach_deleted_keys. intros i Hi.
      apply concat_split_incl in Hi. unfold streamIdsToBeDeleted in Hi.
      apply filter_In in Hi. tauto.
    + intros k. rewrite forEach_deleted_get.
      destruct (existsb _ _) eqn:E; [right|now left].
      apply confirmed_in in E. destruct E as [Hin Hc].
      apply concat_split_incl in Hin.
      apply in_streamIdsToBeDeleted in Hin.
      repeat split; try assumption.
      unfold confirmed in Hc.
      destruct (searches_delete remote k) as [u|]; [eauto|discriminate].
Qed.

(** X12.  The re-classification of a resumed run never adds a ledger
    entry.  The only changes it makes are to turn an entry from
    "unknown" to "inactive" or to remove an entry that read "unknown". *)
Theorem checkUnknown_only_rewrites_unknown (w : World) :
  let w' := snd (checkUnknown remote w) in
  (forall k, In k (keys (ledger w')) -> In k (keys (ledger w))) /\
  forall k,
    get (ledger w') k = get (ledger w) k \/
    (get (ledger w) k = Some "unknown" /\
     (get (ledger w') k = Some "inactive" \/ get (ledger w') k = None)).
Proof.
  cbv zeta.
  assert (H : forall k,
            get (ledger (snd (checkUnknown remote w))) k = get (ledger w) k
            \/ (get (ledger w) k = Some "unknown" /\
                (get (ledger (snd (checkUnknown remote w))) k
                 = Some "inactive"
                 \/ get (ledger (snd (checkUnknown remote w))) k = None))).
  { intros k. unfold checkUnknown. rewrite batchCheckStreamStatuses_run.
    simpl.
    destruct (forEach_checked_cases remote
                (split (streamIdsToBeChecked (ledger w)) None None) w k)
      as [Hsame|[Hin Hval]]; [now left|].
    apply concat_split_incl, in_streamIdsToBeChecked in Hin.
    destruct Hval as [Hu|[Hn|[Hi _]]]; [left; congruence|right|right];
      auto. }
  split; [|exact H].
  intros k. rewrite !in_keys_iff.
  destruct (H k) as [->|[Hu _]]; [tauto|congruence].
Qed.

(** X13.  A run writes no status but "unknown", "inactive" and
    "deleted": a fresh run that got its list ends with a ledger holding
    only these, and a resumed run whose checkpoint holds only these ends
    with a ledger holding only these. *)
Theorem runs_keep_statuses_recognised (argv : Argv) :
  (forall youngest oldest w data,
     searches remote = Fulfilled data ->
     recognised (ledger (snd (start remote argv youngest oldest w)))) /\
  (forall w text o,
     file w = Some text -> JSON.parse text = Some o -> recognised o ->
     recognised (ledger (snd (resume remote argv w)))).
Proof.
  split.
  - intros youngest oldest w data Hs. rewrite start_unfold.
    apply (@after_classification_recognised remote argv _ (fun _ => True));
      [|exact I].
    intros w0 _. cbv beta.
    destruct (fresh_classification_listed argv youngest oldest w0 Hs)
      as [ids [_ ->]].
    apply batchCheckStreamStatuses_recognised. simpl. apply recognised_empty.
  - intros w text o Hf Hp Ho. rewrite resume_unfold.
    apply (@after_classification_recognised remote argv _ (fun w0 => w0 = w));
      [|reflexivity].
    intros w0 ->. cbv beta.
    rewrite (resumed_classification_loaded _ Hf Hp). unfold checkUnknown.
    now apply batchCheckStreamStatuses_recognised.
Qed.

End SafetyClaims.

(** ** What classification records, and runs end to end *)

Section ClassificationClaims.
Import JsObject JsObjectFacts PromiseFacts Batcher BatcherFacts Script.
Import ScriptFacts RunFacts StageFacts WfFacts LedgerFacts JSONFacts.

Variable remote : Remote.

(** X14.  Classifying distinct ids into an empty ledger records exactly
    this: an id reads "unknown" when it is in a batch with a failed
    query, "inactive" when it is in a batch whose queries were all
    answered and its own answer shows no activity, and is absent
    otherwise (found active, or in no batch). *)
Theorem classification_into_empty_ledger (ids : list string) (w : World) :
  NoDup ids -> ledger w = empty ->
  let w' := snd (batchCheckStreamStatuses remote ids w) in
  forall j,
    (get (ledger w') j = Some "unknown" <->
     exists b, In b (split ids None None) /\ In j b /\
               some_rejected (ops_counts remote) b) /\
    (get (ledger w') j = Some "inactive" <->
     exists b c, In b (split ids None None) /\ In j b /\
                 all_answered (ops_counts remote) b /\
                 ops_counts remote j = Fulfilled c /\ quiet c) /\
    (get (ledger w') j = Some "unknown" \/
     get (ledger w') j = Some "inactive" \/
     get (ledger w') j = None).
Proof.
  intros Hnd Hw. cbv zeta. rewrite batchCheckStreamStatuses_run. simpl.
  apply concat_split_NoDup in Hnd. intros j.
  assert (Hown : forall b, In b (split ids None None) -> In j b ->
            get (ledger (forEach (split ids None None) (checked remote) w)) j
            = get (ledger (checked remote b w)) j)
    by (intros b Hb Hj; now apply forEach_checked_own).
  destruct (in_dec string_dec j (concat (split ids None None))) as [Hin|Hout].
  - apply in_concat in Hin. destruct Hin as [b [Hb Hj]].
    rewrite (Hown b Hb Hj).
    destruct (@checked_values remote b w j Hj)
      as [[Hu Hrej]|[Hall [c [Hc [[Hq Hi]|[Hbusy Hn]]]]]].
    + rewrite Hu. split; [|split]; [| |now left].
      * split; [intros _; eauto|reflexivity].
      * split; [discriminate|].
        intros [b' [c [Hb' [Hj' [Hall' _]]]]].
        rewrite <- (Hown b Hb Hj), (Hown b' Hb' Hj') in Hu.
        destruct (Hall' j Hj') as [c' Hc'].
        destruct (@checked_fulfilled remote b' w Hall' j c' Hj' Hc')
          as [Hq' Hb''].
        destruct (quiet_or_busy c') as [Q|Q];
          [rewrite (Hq' Q) in Hu|rewrite (Hb'' Q) in Hu]; discriminate.
    + rewrite Hi. split; [|split]; [| |right; now left].
      * split; [discriminate|].
        intros [b' [Hb' [Hj' [i [e [Hi' He]]]]]].
        rewrite <- (Hown b Hb Hj), (Hown b' Hb' Hj') in Hi.
        rewrite (@checked_rejected remote b' w i e Hi' He j Hj') in Hi.
        discriminate.
      * split; [intros _; exists b, c; auto|reflexivity].
    + rewrite Hn. split; [|split]; [| |right; now right].
      * split; [discriminate|].
        intros [b' [Hb' [Hj' [i [e [Hi' He]]]]]].
        rewrite <- (Hown b Hb Hj), (Hown b' Hb' Hj') in Hn.
        rewrite (@checked_rejected remote b' w i e Hi' He j Hj') in Hn.
        discriminate.
      * split; [discriminate|].
        intros [b' [c' [Hb' [Hj' [Hall' [Hc' Hq']]]]]].
        rewrite Hc in Hc'. injection Hc' as <-.
        destruct Hbusy as [p [Hp Hpos]]. specialize (Hq' p Hp). lia.
  - rewrite forEach_checked_frame by assumption. rewrite Hw. simpl.
    split; [|split]; [| |right; now right].
    + split; [discriminate|]. intros [b [Hb [Hj _]]].
      exfalso. apply Hout. apply in_concat. eauto.
    + split; [discriminate|]. intros [b [c [Hb [Hj _]]]].
      exfalso. apply Hout. apply in_concat. eauto.
Qed.

Lemma filter_none {A : Type} (f : A -> bool) (l : list A) :
  (forall x, In x l -> f x = false) -> filter f l = [].
Proof.
  induction l as [|x l IH]; intros H; simpl; [reflexivity|].
  rewrite (H x) by now left. apply IH. intros y Hy. apply H. now right.
Qed.

(** X15.  With no entry reading "unknown", the re-classification of a
    resumed run is fulfilled without sending a request or touching
    anything; with no entry reading "inactive", so is the deletion phase
    outside a dry run. *)
Theorem nothing_to_check_nothing_to_delete (argv : Argv) (w : World) :
  ((forall k, get (ledger w) k <> Some "unknown") ->
   checkUnknown remote w = (Fulfilled tt, w)) /\
  (dryRun argv = false ->
   (forall k, get (ledger w) k <> Some "inactive") ->
   deleteStreams remote argv w = (Fulfilled tt, w)).
Proof.
  split.
  - intros H. unfold checkUnknown, streamIdsToBeChecked.
    rewrite filter_none.
    + unfold batchCheckStreamStatuses.
      rewrite split_short by (simpl; unfold BATCH_SIZE; lia). reflexivity.
    + intros k _. apply not_true_is_false. rewrite status_is_true. apply H.
  - intros Hdry H. unfold deleteStreams, streamIdsToBeDeleted.
    rewrite Hdry, filter_none.
    + unfold batchDeleteStreams.
      rewrite split_short by (simpl; unfold BATCH_SIZE; lia). reflexivity.
    + intros k _. apply not_true_is_false. rewrite status_is_true. apply H.
Qed.

Lemma fulfilled_pair (p : Promise unit) w :
  fst (p w) = Fulfilled tt -> p w = (Fulfilled tt, snd (p w)).
Proof. destruct (p w) as [r w1]. simpl. now intros ->. Qed.




(** X18.  The batches of a classification of distinct ids may be worked
    in any order: no batch is rejected and every ledger entry comes out
    as when they are worked in list order.  The same holds for the
    batches of a deletion, distinct ids or not. *)
Theorem batches_in_any_order (ids : list string)
    (batches : list (list string)) (w : World) :
  Permutation (split ids None None) batches ->
  (NoDup ids ->
   fst (Promise_map batches (filterBatch remote) w)
     = Fulfilled (map (fun _ => tt) batches) /\
   forall j,
     get (ledger (snd (Promise_map batches (filterBatch remote) w))) j =
     get (ledger (snd (batchCheckStreamStatuses remote ids w))) j) /\
  (fst (Promise_map batches (deleteBatch remote) w)
     = Fulfilled (map (fun _ => tt) batches) /\
   forall j,
     get (ledger (snd (Promise_map batches (deleteBatch remote) w))) j =
     get (ledger (snd (batchDeleteStreams remote ids w))) j).
Proof.
  intros Hp. split.
  - intros Hnd.
    rewrite (Promise_map_fulfilled _ _ (filterBatch_run remote)).
    rewrite batchCheckStreamStatuses_run. simpl. split; [reflexivity|].
    intros j. symmetry. apply forEach_checked_any_order; [|assumption].
    now apply concat_split_NoDup.
  - rewrite (Promise_map_fulfilled _ _ (deleteBatch_run remote)).
    rewrite batchDeleteStreams_run. simpl. split; [reflexivity|].
    intros j. symmetry. now apply forEach_deleted_any_order.
Qed.

End ClassificationClaims.

Section EndToEndClaims.
Import JsObject JsObjectFacts PromiseFacts Batcher BatcherFacts Script.
Import ScriptFacts RunFacts StageFacts WfFacts LedgerFacts JSONFacts.

Variable remote : Remote.

(** X19.  A fresh run outside dry-run mode over fewer than ten listed
    ids, when every query and every delete request is answered and the
    checkpoint can be written, ends with a ledger that holds exactly the
    ids whose query showed no activity, all reading "deleted". *)
Theorem small_live_run_deletes_the_quiet (argv : Argv) (youngest oldest : Z)
    (w : World) (ids : list string) :
  dryRun argv = false -> writeFile_error remote = None ->
  fst (listStreamsRequest remote argv youngest oldest w) = Fulfilled ids ->
  length ids < BATCH_SIZE ->
  all_answered (ops_counts remote) ids ->
  all_answered (searches_delete remote) ids ->
  let w' := snd (start remote argv youngest oldest w) in
  forall j,
    (get (ledger w') j = Some "deleted" <->
     In j ids /\ exists c, ops_counts remote j = Fulfilled c /\ quiet c) /\
    (get (ledger w') j = Some "deleted" \/ get (ledger w') j = None).
Proof.
  intros Hlive He Hl Hlen Hq Hd. cbv zeta.
  destruct (searches remote) as [data|e] eqn:Hs;
    [|unfold listStreamsRequest, then_ in Hl; rewrite Hs in Hl;
      discriminate].
  destruct (fresh_classification_listed remote argv youngest oldest w Hs)
    as [ids' [Hl' Hc]].
  rewrite Hl' in Hl. simpl in Hl. injection Hl as ->.
  set (W := with_ledger empty (send GetSearches w)) in *.
  set (w1 := snd (batchCheckStreamStatuses remote ids W)).
  assert (Hw1 : ledger w1 = ledger (checked remote ids W)).
  { unfold w1. rewrite batchCheckStreamStatuses_run. simpl.
    now rewrite split_short by assumption. }
  assert (Hin : forall j, In j ids ->
            exists c, ops_counts remote j = Fulfilled c /\
              ((quiet c /\ get (ledger w1) j = Some "inactive") \/
               (busy c /\ get (ledger w1) j = None))).
  { intros j Hj. rewrite Hw1. destruct (Hq j Hj) as [c Hcj].
    exists c. split; [assumption|].
    destruct (@checked_fulfilled remote ids W Hq j c Hj Hcj) as [H1 H2].
    destruct (quiet_or_busy c); [left|right]; auto. }
  assert (Hout : forall j, ~ In j ids -> get (ledger w1) j = None).
  { intros j Hj. rewrite Hw1. now rewrite checked_frame by assumption. }
  assert (Hwf1 : wf (ledger w1)).
  { unfold w1. apply batchCheckStreamStatuses_wf. simpl.
    split; [constructor|reflexivity]. }
  set (D := streamIdsToBeDeleted (ledger w1)).
  assert (HD : forall j, In j D <->
            In j ids /\ exists c, ops_counts remote j = Fulfilled c /\ quiet c).
  { intros j. unfold D. rewrite in_streamIdsToBeDeleted. split.
    - intros Hj. destruct (in_dec string_dec j ids) as [Hi|Hi];
        [|rewrite (Hout j Hi) in Hj; discriminate].
      split; [assumption|].
      destruct (Hin j Hi) as [c [Hcj [[Q _]|[_ N]]]]; [eauto|congruence].
    - intros [Hi [c [Hcj Q]]].
      destruct (Hin j Hi) as [c' [Hcj' [[_ I]|[B _]]]]; [assumption|].
      rewrite Hcj in Hcj'. injection Hcj' as <-.
      destruct B as [p [Hp Hpos]]. specialize (Q p Hp). lia. }
  assert (HDlen : length D < BATCH_SIZE).
  { apply Nat.le_lt_trans with (length ids); [|assumption].
    apply NoDup_incl_length.
    - unfold D, streamIdsToBeDeleted. apply NoDup_filter. apply Hwf1.
    - intros j Hj. now apply HD in Hj. }
  rewrite start_unfold.
  rewrite (@after_classification_ok remote argv _ w w1 He)
    by (rewrite Hc; unfold w1; apply fulfilled_pair;
        apply batchCheckStreamStatuses_fst).
  rewrite (proj1 (report_ledger _)). simpl.
  unfold deleteStreams. rewrite Hlive. rewrite batchDeleteStreams_run.
  simpl. fold D. rewrite split_short by assumption.
  intros j. rewrite forEach_deleted_get. simpl. rewrite app_nil_r.
  destruct (existsb _ D) eqn:E.
  - apply confirmed_in in E. destruct E as [Hj _].
    split; [|now left]. split; [intros _; now apply HD|reflexivity].
  - assert (Hnot : ~ In j D).
    { intros Hj. apply not_true_iff_false in E. apply E.
      apply confirmed_in. split; [assumption|].
      apply HD in Hj. destruct Hj as [Hi _]. destruct (Hd j Hi) as [u Hu].
      unfold confirmed. now rewrite Hu. }
    assert (Hnone : get (ledger w1) j = None).
    { destruct (in_dec string_dec j ids) as [Hi|Hi]; [|now apply Hout].
      destruct (Hin j Hi) as [c [Hcj [[Q _]|[_ N]]]]; [|assumption].
      exfalso. apply Hnot. apply HD. eauto. }
    rewrite Hnone. split; [|now right].
    split; [discriminate|]. intros H. exfalso. now apply Hnot, HD.
Qed.


End EndToEndClaims.

Section SummaryClaims.
Import ErrorSummary.

(** X21.  The summary of an error is never empty: it carries the message
    when there is a non-empty one and the status code when there is a
    non-zero one, and it carries the whole error exactly when it has
    neither; it never carries an empty message or a zero status code, and
    it carries the uri of the request when the options give a non-empty
    one. *)
Theorem formatError_never_empty (err : Err) :
  let ret := formatError err in
  (ret_message ret <> None \/ ret_statusCode ret <> None
   \/ ret_err ret <> None) /\
  (ret_err ret = Some err <->
   ret_message ret = None /\ ret_statusCode ret = None) /\
  (ret_err ret = None \/ ret_err ret = Some err) /\
  ret_message ret <> Some "" /\ ret_statusCode ret <> Some 0%Z /\
  (forall s, s <> "" -> message err = Some s -> ret_message ret = Some s) /\
  (forall n, n <> 0%Z -> statusCode err = Some n ->
             ret_statusCode ret = Some n) /\
  (forall o s, options err = Some o -> uri o = Some s -> s <> "" ->
               ret_uri ret = Some s).
Proof.
  cbv zeta.
  assert (Hm : forall v,
            truthy_string (if truthy_string v then v else None)
            = truthy_string v)
    by (intros [s|]; simpl; [destruct (String.eqb s "") eqn:E|]; simpl;
        rewrite ?E; reflexivity).
  assert (Hn : forall v,
            truthy_number (if truthy_number v then v else None)
            = truthy_number v)
    by (intros [n|]; simpl; [destruct (n =? 0)%Z eqn:E|]; simpl;
        rewrite ?E; reflexivity).
  assert (Tm : forall v s, v = Some s ->
            truthy_string v = negb (String.eqb s ""))
    by (intros v s ->; reflexivity).
  assert (Tn : forall v n, v = Some n ->
            truthy_number v = negb (n =? 0)%Z)
    by (intros v n ->; reflexivity).
  unfold formatError. cbn [ret_message ret_statusCode ret_err ret_uri].
  rewrite Hm, Hn.
  destruct (truthy_string (message err)) eqn:Em;
    destruct (truthy_number (statusCode err)) eqn:En; cbn [negb andb].
  all: repeat match goal with |- _ /\ _ => split end.
  all: try (intros s Hs E; rewrite (Tm _ _ E) in Em;
            apply String.eqb_neq in Hs; rewrite Hs in Em;
            first [discriminate|assumption]).
  all: try (intros n Hz E; rewrite (Tn _ _ E) in En;
            apply Z.eqb_neq in Hz; rewrite Hz in En;
            first [discriminate|assumption]).
  all: try (intros o s Ho Hu Hs; rewrite Ho, Hu; simpl;
            apply String.eqb_neq in Hs; now rewrite Hs).
  all: try (intros E; first [rewrite (Tm _ _ E) in Em|rewrite (Tn _ _ E) in En];
            discriminate).
  all: try (intros [? ?]; discriminate).
  all: try discriminate.
  all: try (intros _; split; reflexivity).
  all: try (intros _; reflexivity).
  all: try (right; reflexivity).
  all: try (left; reflexivity).
  all: try (right; right; discriminate).
  all: try (destruct (message err); [left; discriminate|discriminate]).
  all: try (destruct (statusCode err);
            [right; left; discriminate|discriminate]).
  all: try (split; [discriminate|];
            intros [H1 H2];
            first [rewrite H1 in Em; discriminate
                  |rewrite H2 in En; discriminate]).
  all: split; [intros _; split; reflexivity|reflexivity].
Qed.

End SummaryClaims.

Section TraceClaims.
Import JsObject JsObjectFacts PromiseFacts Batcher BatcherFacts Script.
Import ScriptFacts RunFacts StageFacts LedgerFacts.

Variable remote : Remote.

Lemma after_classification_issued argv classify w :
  exists ds,
    issued (snd (after_classification remote argv classify w)) =
    issued (snd (classify w)) ++ map DeleteSearch ds.
Proof.
  destruct (settles classify w) as [r [w1 [Hc [->|[e ->]]]]]; rewrite Hc;
    simpl.
  - destruct (writeFile_error remote) as [e|] eqn:He.
    + rewrite (@after_classification_write_fails remote argv classify w
                 _ _ He Hc).
      exists []. simpl. now rewrite app_nil_r.
    + rewrite (@after_classification_ok remote argv classify w _ He Hc).
      rewrite (proj2 (report_ledger _)). simpl.
      unfold deleteStreams. destruct (dryRun argv); simpl.
      * exists []. simpl. now rewrite app_nil_r.
      * rewrite batchDeleteStreams_run. simpl.
        rewrite forEach_deleted_issued. simpl. eauto.
  - rewrite (@after_classification_rejected remote argv classify w _ _ Hc).
    exists []. simpl. now rewrite app_nil_r.
Qed.

(** X22.  The requests of a run come in phases.  A fresh run sends the
    list request first and once, then time-series requests, then delete
    requests; a resumed run sends no list request, only time-series
    requests and then delete requests.  No query is sent once a delete
    request has gone out. *)
Theorem requests_come_in_phases (argv : Argv) :
  (forall youngest oldest w,
     exists qs ds,
       issued (snd (start remote argv youngest oldest w)) =
       issued w ++ GetSearches :: map GetTimeseries qs ++ map DeleteSearch ds)
  /\
  (forall w,
     exists qs ds,
       issued (snd (resume remote argv w)) =
       issued w ++ map GetTimeseries qs ++ map DeleteSearch ds).
Proof.
  split.
  - intros youngest oldest w. rewrite start_unfold.
    destruct (after_classification_issued argv
                (fresh_classification remote argv youngest oldest) w)
      as [ds ->].
    unfold fresh_classification, then_ at 1, listStreamsRequest, then_.
    destruct (searches remote) as [data|e]; simpl.
    + rewrite batchCheckStreamStatuses_run. simpl.
      rewrite forEach_checked_issued. simpl.
      eexists. exists ds. rewrite <- !app_assoc. reflexivity.
    + exists [], ds. rewrite <- !app_assoc. reflexivity.
  - intros w. rewrite resume_unfold.
    destruct (after_classification_issued argv
                (resumed_classification remote) w) as [ds ->].
    unfold resumed_classification, then_, getStreamStatus.
    destruct (file w) as [text|]; [|exists [], ds; reflexivity].
    destruct (JSON.parse text) as [o|]; [|exists [], ds; reflexivity].
    rewrite checkUnknown_issued. simpl.
    eexists. exists ds. rewrite <- !app_assoc. reflexivity.
Qed.

End TraceClaims.

(** ** The further statements at sample inputs *)

Section MoreWitnesses.
Import JsObject Batcher Script Samples MoreSamples.

Lemma twenty_distinct : NoDup twenty.
Proof.
  unfold twenty.
  repeat (constructor; [simpl; intuition discriminate|]); constructor.
Defined.

Lemma twenty_batches :
  split twenty None None = [firstn 10 twenty; skipn 10 twenty].
Proof. vm_compute. reflexivity. Defined.

Lemma resume_deletes_only_inactive_witness :
  (file (checkpoint abc) = Some (JSON.stringify abc) /\
   JSON.parse (JSON.stringify abc) = Some abc /\
   In (DeleteSearch "A") (issued (snd (resume calm live (checkpoint abc)))))
  /\
  (In (DeleteSearch "A") (issued (checkpoint abc)) \/
   get abc "A" = Some "inactive" \/
   (get abc "A" = Some "unknown" /\
    exists c, ops_counts calm "A" = Fulfilled c /\ quiet c)).
Proof.
  assert (H1 : file (checkpoint abc) = Some (JSON.stringify abc))
    by reflexivity.
  assert (H2 : JSON.parse (JSON.stringify abc) = Some abc) by reflexivity.
  assert (H3 : In (DeleteSearch "A")
                 (issued (snd (resume calm live (checkpoint abc)))))
    by (vm_compute; right; left; reflexivity).
  split; [tauto|].
  exact (@resume_deletes_only_inactive calm live (checkpoint abc)
           (JSON.stringify abc) abc "A" H1 H2 H3).
Defined.

Lemma start_deletes_only_inactive_witness :
  In (DeleteSearch "s1")
    (issued (snd (start serving any_service 2000 1000 nothing))) /\
  (In (DeleteSearch "s1") (issued nothing) \/
   exists ids,
     fst (listStreamsRequest serving any_service 2000 1000 nothing)
       = Fulfilled ids /\
     In "s1" ids /\
     exists c, ops_counts serving "s1" = Fulfilled c /\ quiet c).
Proof.
  assert (H : In (DeleteSearch "s1")
                (issued (snd (start serving any_service 2000 1000 nothing))))
    by (vm_compute; tauto).
  split; [exact H|].
  exact (@start_deletes_only_inactive serving any_service 2000 1000 nothing
           "s1" H).
Defined.

Lemma classification_into_empty_ledger_witness :
  (NoDup twenty /\ ledger (holding empty) = empty) /\
  let w' := snd (batchCheckStreamStatuses flaky twenty (holding empty)) in
  (get (ledger w') "s1" = Some "unknown" <->
   exists b, In b (split twenty None None) /\ In "s1" b /\
             some_rejected (ops_counts flaky) b).
Proof.
  assert (H1 : NoDup twenty) by exact twenty_distinct.
  assert (H2 : ledger (holding empty) = empty) by reflexivity.
  split; [tauto|].
  exact (proj1 (@classification_into_empty_ledger flaky twenty
                  (holding empty) H1 H2 "s1")).
Defined.

Lemma nothing_to_check_nothing_to_delete_witness :
  (forall k, get (ledger (holding (ledger_of "deleted" ["A"; "B"]))) k
             <> Some "unknown") /\
  checkUnknown flaky (holding (ledger_of "deleted" ["A"; "B"])) =
  (Fulfilled tt, holding (ledger_of "deleted" ["A"; "B"])).
Proof.
  assert (H : forall k,
            get (ledger (holding (ledger_of "deleted" ["A"; "B"]))) k
            <> Some "unknown").
  { intros k E. unfold holding, ledger_of in E. cbn [ledger map get] in E.
    destruct (String.eqb "A" k); [discriminate|].
    destruct (String.eqb "B" k); discriminate. }
  split; [exact H|].
  exact (proj1 (@nothing_to_check_nothing_to_delete flaky live
                  (holding (ledger_of "deleted" ["A"; "B"]))) H).
Defined.



Lemma batches_in_any_order_witness :
  (Permutation (split twenty None None) [skipn 10 twenty; firstn 10 twenty]
   /\ NoDup twenty) /\
  forall j,
    get (ledger (snd (Promise_map [skipn 10 twenty; firstn 10 twenty]
                        (filterBatch flaky) (holding empty)))) j =
    get (ledger (snd (batchCheckStreamStatuses flaky twenty
                        (holding empty)))) j.
Proof.
  assert (H1 : Permutation (split twenty None None)
                 [skipn 10 twenty; firstn 10 twenty])
    by (rewrite twenty_batches; apply perm_swap).
  assert (H2 : NoDup twenty) by exact twenty_distinct.
  split; [tauto|].
  exact (proj2 (proj1 (@batches_in_any_order flaky twenty
                         [skipn 10 twenty; firstn 10 twenty]
                         (holding empty) H1) H2)).
Defined.

Lemma small_live_run_deletes_the_quiet_witness :
  (dryRun any_service = false /\ writeFile_error serving = None /\
   fst (listStreamsRequest serving any_service 2000 1000 nothing)
     = Fulfilled ["s1"; "s4"] /\
   length ["s1"; "s4"] < BATCH_SIZE /\
   all_answered (ops_counts serving) ["s1"; "s4"] /\
   all_answered (searches_delete serving) ["s1"; "s4"]) /\
  let w' := snd (start serving any_service 2000 1000 nothing) in
  (get (ledger w') "s1" = Some "deleted" <->
   In "s1" ["s1"; "s4"] /\
   exists c, ops_counts serving "s1" = Fulfilled c /\ quiet c) /\
  (get (ledger w') "s4" = Some "deleted" \/ get (ledger w') "s4" = None).
Proof.
  assert (H1 : dryRun any_service = false) by reflexivity.
  assert (H2 : writeFile_error serving = None) by reflexivity.
  assert (H3 : fst (listStreamsRequest serving any_service 2000 1000 nothing)
               = Fulfilled ["s1"; "s4"]) by reflexivity.
  assert (H4 : length ["s1"; "s4"] < BATCH_SIZE)
    by (unfold BATCH_SIZE; simpl; lia).
  assert (H5 : all_answered (ops_counts serving) ["s1"; "s4"])
    by (intros i [<-|[<-|[]]]; eexists; reflexivity).
  assert (H6 : all_answered (searches_delete serving) ["s1"; "s4"])
    by (intros i [<-|[<-|[]]]; eexists; reflexivity).
  split; [tauto|].
  pose proof (@small_live_run_deletes_the_quiet serving any_service
                2000 1000 nothing ["s1"; "s4"] H1 H2 H3 H4 H5 H6) as H.
  cbv zeta in H. split; [exact (proj1 (H "s1"))|exact (proj2 (H "s4"))].
Defined.

End MoreWitnesses.
